(** * deal.II grid kernel: spherical chart and canonical mesh generator

    A shallow embedding of [source/grid/manifold_lib.cc]
    (class [SphericalManifold]) and of the interface declared in
    [include/grid/grid_generator.h] (class [GridGenerator]).

    Numbers.  A C++ [double] is read as a real number ([R]); rounding is
    not modelled.  The one place where the source leaves the real numbers,
    a division whose divisor is zero, is kept visible: it produces the
    outcome [NotFinite] (IEEE arithmetic yields an infinity or a NaN there,
    never a real number).

    Failures.  Assertions are those of a debug build: a failing [Assert]
    is the outcome [Throws e], with [e] the exception object the source
    names. *)

From Stdlib Require Import String Reals Lra Lia List Arith Bool.
Import ListNotations.
Local Open Scope R_scope.

(* ================================================================== *)
(** * Part I.  Definitions *)
(* ================================================================== *)

(** ** Outcomes of a call *)

Inductive Exception : Type :=
| ExcImpossibleInDim (d : nat)
| ExcMessage (msg : string)
| ExcInternalError
| ExcNotImplemented
| ExcTriangulationNotEmpty
| ExcInvalidVertexIndex (i : nat)
| ExcInvalidRadii
| ExcInvalidRepetitions (n : nat)
| ExcInvalidRepetitionsDimension (n : nat).

Inductive outcome (A : Type) : Type :=
| Value (a : A)
| Throws (e : Exception)
| NotFinite.

Arguments Value {A} a.
Arguments Throws {A} e.
Arguments NotFinite {A}.

Definition bind {A B : Type} (m : outcome A) (k : A -> outcome B) : outcome B :=
  match m with
  | Value a => k a
  | Throws e => Throws e
  | NotFinite => NotFinite
  end.

Notation "x <- m ;; k" := (bind m (fun x => k))
  (at level 61, m at next level, right associativity).

(** [Assert(cond, exc)] of [base/exceptions.h]. *)
Definition Assert (cond : bool) (exc : Exception) : outcome unit :=
  if cond then Value tt else Throws exc.

Fixpoint mapM {A B : Type} (f : A -> outcome B) (l : list A) : outcome (list B) :=
  match l with
  | [] => Value []
  | a :: l' => b <- f a ;; bs <- mapM f l' ;; Value (b :: bs)
  end.

(** Comparisons of doubles, as booleans. *)
Definition Rltb (a b : R) : bool := if Rlt_dec a b then true else false.
Definition Rleb (a b : R) : bool := if Rle_dec a b then true else false.

(** Division of doubles: no real number results from a zero divisor. *)
Definition fdiv (a b : R) : outcome R :=
  if Req_dec_T b 0 then NotFinite else Value (a / b).

(** [atan2] of <cmath>, on real numbers (signed zeros are not modelled):
    the angle in (-PI, PI] of the point (x, y), and 0 at the origin. *)
Definition atan2 (y x : R) : R :=
  if Rlt_dec 0 x then atan (y / x)
  else if Rlt_dec x 0 then
         (if Rle_dec 0 y then atan (y / x) + PI else atan (y / x) - PI)
  else if Rlt_dec 0 y then PI / 2
  else if Rlt_dec y 0 then - (PI / 2)
  else 0.

(** ** Points *)

(** Modelled from the spec: [Point<dim>] of [base/point.h], which is not
    among the sources: a fixed-size vector of real coordinates, created
    as the origin, with component-wise addition, subtraction and scaling,
    and the Euclidean norm.  A [Point<dim>] is a list of length [dim]. *)
Definition Point : Type := list R.

Definition origin (dim : nat) : Point := repeat 0 dim.

(** [p[i]] read; 0 stands for the read past the end, which no instantiated
    dimension performs. *)
Definition coord (p : Point) (i : nat) : R := nth i p 0.

(** [p[i] = v]; a write past the end changes nothing. *)
Fixpoint set_coord (p : Point) (i : nat) (v : R) : Point :=
  match p, i with
  | [], _ => []
  | _ :: p', O => v :: p'
  | a :: p', S i' => a :: set_coord p' i' v
  end.

Fixpoint padd (p q : Point) : Point :=
  match p, q with
  | a :: p', b :: q' => (a + b) :: padd p' q'
  | _, _ => []
  end.

Fixpoint psub (p q : Point) : Point :=
  match p, q with
  | a :: p', b :: q' => (a - b) :: psub p' q'
  | _, _ => []
  end.

Definition pscale (k : R) (p : Point) : Point := map (Rmult k) p.

Fixpoint norm_square (p : Point) : R :=
  match p with
  | [] => 0
  | a :: p' => a * a + norm_square p'
  end.

Definition norm (p : Point) : R := sqrt (norm_square p).

(** ** Quadrature: the weighted points handed to [get_new_point] *)

(** Modelled from the spec: [Quadrature<spacedim>] of [base/quadrature.h]:
    a vector of points and a vector of weights of the same size. *)
Record Quadrature : Type := mkQuadrature {
  quadrature_points : list Point;
  weights : list R
}.

Definition size (quad : Quadrature) : nat := length (quadrature_points quad).
Definition point (quad : Quadrature) (i : nat) : Point :=
  nth i (quadrature_points quad) [].
Definition weight (quad : Quadrature) (i : nat) : R :=
  nth i (weights quad) 0.

(** ** SphericalManifold (source/grid/manifold_lib.cc) *)

Module SphericalManifold.

(** [periodicity] is the member of the base class [ManifoldChart] that the
    constructor initialises; no member function assigns to either field. *)
Record t : Type := mk {
  spacedim : nat;
  center : Point;
  periodicity : Point
}.

Definition get_periodicity (spacedim : nat) : Point :=
  let periodicity := origin spacedim in
  set_coord periodicity (spacedim - 1) (2 * PI).

(** The constructor. *)
Definition make (spacedim : nat) (center : Point) : outcome t :=
  let M := mk spacedim center (get_periodicity spacedim) in
  _ <- Assert (negb (spacedim =? 1)%nat) (ExcImpossibleInDim 1) ;;
  Value M.

Definition push_forward (M : t) (spherical_point : Point) : outcome Point :=
  _ <- Assert (Rleb 0 (coord spherical_point 0))
         (ExcMessage "Negative radius for given point.") ;;
  let rho := coord spherical_point 0 in
  let theta := coord spherical_point 1 in
  let p := origin (spacedim M) in
  p <- (if Rltb 1e-10 rho then
          match spacedim M with
          | 2%nat =>
              let p := set_coord p 0 (rho * cos theta) in
              let p := set_coord p 1 (rho * sin theta) in
              Value p
          | 3%nat =>
              let phi := coord spherical_point 2 in
              let p := set_coord p 0 (rho * sin theta * cos phi) in
              let p := set_coord p 1 (rho * sin theta * sin phi) in
              let p := set_coord p 2 (rho * cos theta) in
              Value p
          | _ => Throws ExcInternalError
          end
        else Value p) ;;
  Value (padd p (center M)).

Definition pull_back (M : t) (space_point : Point) : outcome Point :=
  let R := psub space_point (center M) in
  let rho := norm R in
  let x := coord R 0 in
  let y := coord R 1 in
  let p := origin (spacedim M) in
  let p := set_coord p 0 rho in
  match spacedim M with
  | 2%nat =>
      let p := set_coord p 1 (atan2 y x) in
      let p := if Rltb (coord p 1) 0
               then set_coord p 1 (coord p 1 + 2 * PI) else p in
      Value p
  | 3%nat =>
      let z := coord R 2 in
      let p := set_coord p 2 (atan2 y x) in
      let p := if Rltb (coord p 2) 0
               then set_coord p 2 (coord p 2 + 2 * PI) else p in
      let p := set_coord p 1 (atan2 (sqrt (x * x + y * y)) z) in
      Value p
  | _ => Throws ExcInternalError
  end.

(** Modelled from the spec: [ManifoldChart::get_new_point] of
    [grid/manifold.cc], the generic chart rule, which is not among the
    sources: pull each point back, take the weighted average in chart
    space, push forward the average. *)
Definition chart_average (chart_points : list Point) (weights : list R)
    (chartdim : nat) : Point :=
  fold_left (fun avg wp => padd avg (pscale (fst wp) (snd wp)))
            (combine weights chart_points) (origin chartdim).

(** The base-class method, which calls the chart maps of the derived
    class. *)
Definition ManifoldChart_get_new_point (M : t) (quad : Quadrature)
    : outcome Point :=
  chart_points <- mapM (pull_back M) (quadrature_points quad) ;;
  push_forward M (chart_average chart_points (weights quad) (spacedim M)).

(** One iteration of the loop of [get_new_point]. *)
Definition accumulate (M : t) (quad : Quadrature)
    (acc : R * Point) (i : nat) : R * Point :=
  let (rho_average, mid_point) := acc in
  (rho_average + weight quad i * norm (psub (point quad i) (center M)),
   padd mid_point (pscale (weight quad i) (point quad i))).

Definition get_new_point (M : t) (quad : Quadrature) : outcome Point :=
  if (spacedim M =? 2)%nat then ManifoldChart_get_new_point M quad
  else
    let (rho_average, mid_point) :=
      fold_left (accumulate M quad) (seq 0 (size quad))
                (0, origin (spacedim M)) in
    let R := psub mid_point (center M) in
    scale <- fdiv rho_average (norm R) ;;
    let R := pscale scale R in
    Value (padd (center M) R).

End SphericalManifold.

(** ** Reference definitions for the chart *)

(** The canonical representative of an angle returned by [atan2]: 2 PI is
    added when, and only when, the angle is negative. *)
Definition add_period_if_negative (a : R) : R :=
  if Rlt_dec a 0 then a + 2 * PI else a.

(** The sums of the averaging rule: the weighted average radius and the
    weighted average point of a quadrature. *)
Fixpoint weighted_radius (center : Point) (ps : list Point) (ws : list R) : R :=
  match ps, ws with
  | p :: ps', w :: ws' => w * norm (psub p center) + weighted_radius center ps' ws'
  | _, _ => 0
  end.

Fixpoint weighted_point (dim : nat) (ps : list Point) (ws : list R) : Point :=
  match ps, ws with
  | p :: ps', w :: ws' => padd (pscale w p) (weighted_point dim ps' ws')
  | _, _ => origin dim
  end.

Fixpoint total_weight (ws : list R) : R :=
  match ws with
  | [] => 0
  | w :: ws' => w + total_weight ws'
  end.

(** Concrete inputs of the examples: the unit sphere around the origin of
    3-space, two antipodal points on it with equal weights, and two points
    on a ray with weights 2 and -1. *)
Definition unit_sphere : SphericalManifold.t :=
  SphericalManifold.mk 3 [0; 0; 0] (SphericalManifold.get_periodicity 3).

Definition antipodal_quadrature : Quadrature :=
  mkQuadrature [[1; 0; 0]; [-1; 0; 0]] [1 / 2; 1 / 2].

Definition extrapolating_quadrature : Quadrature :=
  mkQuadrature [[1; 0; 0]; [3; 0; 0]] [2; -1].

Definition quarter_quadrature : Quadrature :=
  mkQuadrature [[1; 0; 0]; [0; 1; 0]] [1 / 2; 1 / 2].

(** A quadrature over points of [dim] coordinates. *)
Definition well_formed (dim : nat) (quad : Quadrature) : Prop :=
  length (weights quad) = length (quadrature_points quad) /\
  Forall (fun p => length p = dim) (quadrature_points quad).


(** ** GridGenerator (include/grid/grid_generator.h) *)

(** The header declares the routines and their exceptions; the bodies
    ([grid_generator.cc]) and the triangulation container are not among the
    sources.  What follows is their model from the specification. *)

Module GridGenerator.

(** The kinds of failure of the specification's taxonomy. *)
Inductive ErrorKind : Type :=
| InvalidArgument
| UnsupportedDimension
| PreconditionViolation
| NotImplemented
| InternalInconsistency.

Definition error_kind (e : Exception) : ErrorKind :=
  match e with
  | ExcImpossibleInDim _ => UnsupportedDimension
  | ExcMessage _ => InvalidArgument
  | ExcInternalError => InternalInconsistency
  | ExcNotImplemented => NotImplemented
  | ExcTriangulationNotEmpty => PreconditionViolation
  | ExcInvalidVertexIndex _ => InvalidArgument
  | ExcInvalidRadii => InvalidArgument
  | ExcInvalidRepetitions _ => InvalidArgument
  | ExcInvalidRepetitionsDimension _ => InvalidArgument
  end.

(** Modelled from the spec: the mesh container [Triangulation<dim>] of
    [grid/tria.h]: the vertices, the cells as ordered tuples of vertex
    indices with a material id, and the boundary faces as tuples of vertex
    indices with a boundary id. *)
Record CellData : Type := mkCell {
  cell_vertices : list nat;
  material_id : nat
}.

Record BoundaryFace : Type := mkFace {
  face_vertices : list nat;
  boundary_id : nat
}.

Record Triangulation : Type := mkTria {
  vertices : list Point;
  cells : list CellData;
  boundary_faces : list BoundaryFace
}.

Definition void_triangulation : Triangulation := mkTria [] [] [].

Definition is_void (tria : Triangulation) : bool :=
  match vertices tria, cells tria, boundary_faces tria with
  | [], [], [] => true
  | _, _, _ => false
  end.

(** A routine that works on a caller-supplied mesh: how the call ends, and
    the mesh as the call leaves it. *)
Definition call : Type := (outcome unit * Triangulation)%type.

(** Modelled from the spec: [Triangulation::create_triangulation]: the mesh
    must be void before synthesis. *)
Definition create_triangulation (tria : Triangulation)
    (v : list Point) (c : list CellData) (f : list BoundaryFace) : call :=
  if is_void tria then (Value tt, mkTria v c f)
  else (Throws ExcTriangulationNotEmpty, tria).

(** *** Tensor-product grids *)

(** One coordinate direction of a box: its lower and upper end and the
    number of cells along it. *)
Record Axis : Type := mkAxis {
  lo : R;
  hi : R;
  reps : nat
}.

(** The corner points are normalised so that [lo] is the lower one. *)
Fixpoint make_axes (p1 p2 : Point) (repetitions : list nat) : list Axis :=
  match p1, p2, repetitions with
  | a :: p1', b :: p2', r :: rs =>
      mkAxis (Rmin a b) (Rmax a b) r :: make_axes p1' p2' rs
  | _, _, _ => []
  end.

Definition delta (a : Axis) : R := (hi a - lo a) / INR (reps a).

Definition axis_coord (a : Axis) (i : nat) : R := lo a + INR i * delta a.

(** The grid points, the first coordinate running fastest. *)
Fixpoint grid_points (axes : list Axis) : list Point :=
  match axes with
  | [] => [[]]
  | a :: rest =>
      flat_map (fun q => map (fun i => axis_coord a i :: q) (seq 0 (S (reps a))))
               (grid_points rest)
  end.

(** The position of a grid point in [grid_points]. *)
Fixpoint linear_index (axes : list Axis) (idx : list nat) : nat :=
  match axes, idx with
  | a :: rest, i :: idx' => i + S (reps a) * linear_index rest idx'
  | _, _ => 0
  end.

(** The cells, by the grid index of their lowest corner. *)
Fixpoint cell_indices (axes : list Axis) : list (list nat) :=
  match axes with
  | [] => [[]]
  | a :: rest =>
      flat_map (fun c => map (fun i => i :: c) (seq 0 (reps a)))
               (cell_indices rest)
  end.

(** The corners of the reference cell: the 2^dim tuples of 0 and 1, the
    first entry running fastest. *)
Fixpoint corners (dim : nat) : list (list nat) :=
  match dim with
  | O => [[]]
  | S d => flat_map (fun b => [0%nat :: b; 1%nat :: b]) (corners d)
  end.

Fixpoint shift (c b : list nat) : list nat :=
  match c, b with
  | i :: c', j :: b' => (i + j)%nat :: shift c' b'
  | _, _ => []
  end.

Definition grid_cell (axes : list Axis) (c : list nat) : CellData :=
  mkCell (map (fun b => linear_index axes (shift c b)) (corners (length axes))) 0.

(** Face [2 k + s] of a cell: the corners whose entry [k] is [s]. *)
Definition face_corners (dim k s : nat) : list (list nat) :=
  filter (fun b => (nth k b 0 =? s)%nat) (corners dim).

Definition grid_face (axes : list Axis) (c : list nat) (k s : nat) : BoundaryFace :=
  mkFace (map (fun b => linear_index axes (shift c b))
              (face_corners (length axes) k s)) 0.

(** Face [2 k + s] of cell [c] lies on the boundary of the box. *)
Definition on_boundary (axes : list Axis) (c : list nat) (k s : nat) : bool :=
  match s with
  | O => (nth k c 0 =? 0)%nat
  | _ => (S (nth k c 0) =? reps (nth k axes (mkAxis 0 0 0)))%nat
  end.

Definition cell_boundary_faces (axes : list Axis) (c : list nat)
    : list BoundaryFace :=
  flat_map (fun k =>
              flat_map (fun s => if on_boundary axes c k s
                                 then [grid_face axes c k s] else [])
                       [0%nat; 1%nat])
           (seq 0 (length axes)).

Definition grid_boundary_faces (axes : list Axis) : list BoundaryFace :=
  flat_map (cell_boundary_faces axes) (cell_indices axes).

(** *** Colorizers *)

(** Modelled from the spec: [colorize_hyper_rectangle (tria)]: the mesh is a
    single cell, and face 2 k + s of it, the face at the minimum (s = 0) or
    maximum (s = 1) of coordinate k, receives boundary id 2 k + s. *)
Fixpoint number_faces (first : nat) (fs : list BoundaryFace) : list BoundaryFace :=
  match fs with
  | [] => []
  | f :: fs' => mkFace (face_vertices f) first :: number_faces (S first) fs'
  end.

Definition colorize_hyper_rectangle (tria : Triangulation) : Triangulation :=
  mkTria (vertices tria) (cells tria) (number_faces 0 (boundary_faces tria)).

(** All vertices of a face have coordinate [k] within [epsilon] of [x]. *)
Definition face_at (tria : Triangulation) (f : BoundaryFace)
    (k : nat) (x epsilon : R) : bool :=
  forallb (fun v => Rltb (Rabs (coord (nth v (vertices tria) []) k - x)) epsilon)
          (face_vertices f).

(** Modelled from the spec: [colorize_subdivided_hyper_rectangle
    (tria, p1, p2, epsilon)]: a boundary face at the minimum of coordinate k
    receives boundary id 2 k, one at the maximum 2 k + 1; positions are
    compared up to [epsilon]. *)
Fixpoint face_color (tria : Triangulation) (p1 p2 : Point) (epsilon : R)
    (f : BoundaryFace) (ks : list nat) : nat :=
  match ks with
  | [] => boundary_id f
  | k :: ks' =>
      if face_at tria f k (coord p1 k) epsilon then (2 * k)%nat
      else if face_at tria f k (coord p2 k) epsilon then (2 * k + 1)%nat
      else face_color tria p1 p2 epsilon f ks'
  end.

Definition colorize_subdivided_hyper_rectangle (dim : nat)
    (tria : Triangulation) (p1 p2 : Point) (epsilon : R) : Triangulation :=
  mkTria (vertices tria) (cells tria)
         (map (fun f => mkFace (face_vertices f)
                               (face_color tria p1 p2 epsilon f (seq 0 dim)))
              (boundary_faces tria)).

(** *** Catalog routines *)

(** Modelled from the spec: [hyper_rectangle (tria, p1, p2, colorize)]: a
    single cell spanning the box with corners [p1] and [p2]. *)
Definition hyper_rectangle (dim : nat) (tria : Triangulation)
    (p1 p2 : Point) (colorize : bool) : call :=
  let axes := make_axes p1 p2 (repeat 1%nat dim) in
  match create_triangulation tria (grid_points axes)
          (map (grid_cell axes) (cell_indices axes))
          (grid_boundary_faces axes) with
  | (Value _, tria') =>
      (Value tt, if colorize then colorize_hyper_rectangle tria' else tria')
  | failed => failed
  end.

(** Modelled from the spec: [subdivided_hyper_rectangle (tria, repetitions,
    p1, p2, colorize)]: the vector of repetitions must have [dim] entries,
    each at least 1; then like [hyper_rectangle] with [repetitions[k]] cells
    along coordinate k.  [epsilon] is the tolerance handed to the colorizer,
    which the specification does not fix. *)
Definition subdivided_hyper_rectangle (dim : nat) (tria : Triangulation)
    (repetitions : list nat) (p1 p2 : Point) (colorize : bool)
    (epsilon : R) : call :=
  if negb (length repetitions =? dim)%nat
  then (Throws (ExcInvalidRepetitionsDimension dim), tria)
  else
    match find (fun r => (r <? 1)%nat) repetitions with
    | Some r => (Throws (ExcInvalidRepetitions r), tria)
    | None =>
        let axes := make_axes p1 p2 repetitions in
        match create_triangulation tria (grid_points axes)
                (map (grid_cell axes) (cell_indices axes))
                (grid_boundary_faces axes) with
        | (Value _, tria') =>
            (Value tt,
             if colorize
             then colorize_subdivided_hyper_rectangle dim tria'
                    (map lo axes) (map hi axes) epsilon
             else tria')
        | failed => failed
        end
    end.

(** The catalog entries whose coarse mesh the specification describes
    without fixing the coordinates (central-cell size, automatic cell
    count). *)
Inductive Shape : Type :=
| HyperL (left right : R)
| HyperBall (center : Point) (radius : R)
| HyperCubeSlit (left right : R) (colorize : bool)
| HyperShell (center : Point) (inner_radius outer_radius : R) (n_cells : nat).

Section Catalog.

(** The coarse mesh of a shape in a dimension where it is implemented. *)
Variable coarse_mesh : nat -> Shape -> Triangulation.

Definition build (dim : nat) (tria : Triangulation) (shape : Shape) : call :=
  let mesh := coarse_mesh dim shape in
  create_triangulation tria (vertices mesh) (cells mesh) (boundary_faces mesh).

(** Modelled from the spec: [hyper_L]: undefined in 1-D. *)
Definition hyper_L (dim : nat) (tria : Triangulation) (left right : R) : call :=
  match dim with
  | 1%nat => (Throws (ExcImpossibleInDim 1), tria)
  | _ => build dim tria (HyperL left right)
  end.

(** Modelled from the spec: [hyper_ball]: undefined in 1-D, implemented in
    2-D, not implemented in 3-D. *)
Definition hyper_ball (dim : nat) (tria : Triangulation)
    (center : Point) (radius : R) : call :=
  match dim with
  | 1%nat => (Throws (ExcImpossibleInDim 1), tria)
  | 2%nat => build dim tria (HyperBall center radius)
  | _ => (Throws ExcNotImplemented, tria)
  end.

(** Modelled from the spec: [hyper_cube_slit]: undefined in 1-D, implemented
    in 2-D, not implemented in 3-D. *)
Definition hyper_cube_slit (dim : nat) (tria : Triangulation)
    (left right : R) (colorize : bool) : call :=
  match dim with
  | 1%nat => (Throws (ExcImpossibleInDim 1), tria)
  | 2%nat => build dim tria (HyperCubeSlit left right colorize)
  | _ => (Throws ExcNotImplemented, tria)
  end.

(** Modelled from the spec: [hyper_shell]: undefined in 1-D; fails with
    [ExcInvalidRadii] unless 0 < inner_radius < outer_radius; implemented in
    2-D, not implemented in 3-D. *)
Definition hyper_shell (dim : nat) (tria : Triangulation)
    (center : Point) (inner_radius outer_radius : R) (n_cells : nat) : call :=
  match dim with
  | 1%nat => (Throws (ExcImpossibleInDim 1), tria)
  | _ =>
      if negb (Rltb 0 inner_radius && Rltb inner_radius outer_radius)
      then (Throws ExcInvalidRadii, tria)
      else
        match dim with
        | 2%nat =>
            build dim tria (HyperShell center inner_radius outer_radius n_cells)
        | _ => (Throws ExcNotImplemented, tria)
        end
  end.

End Catalog.

(** *** The Laplace smoother *)

(** [std::map<unsigned int, T>]: at most one entry per key. *)
Fixpoint lookup {T : Type} (i : nat) (m : list (nat * T)) : option T :=
  match m with
  | [] => None
  | (j, v) :: m' => if (i =? j)%nat then Some v else lookup i m'
  end.

Section LaplaceSmoother.

(** The linear-algebra collaborator: the sparse matrix type, the assembly
    of the discrete Laplacian over the mesh connectivity, and the solve with
    Dirichlet data [m], declared as [laplace_solve (S, m, u)]. *)
Variable SparseMatrix : Type.
Variable create_laplace_matrix : Triangulation -> SparseMatrix.
Variable laplace_solve : SparseMatrix -> list (nat * R) -> list R.

(** Modelled from the spec: [laplace_transformation (tria, new_points)]:
    not implemented in 1-D; every index of [new_points] must be an existing
    vertex; then one solve per coordinate, with that coordinate of
    [new_points] as Dirichlet data, and every vertex overwritten with the
    solutions. *)
Definition laplace_transformation (dim : nat) (tria : Triangulation)
    (new_points : list (nat * Point)) : call :=
  match dim with
  | 1%nat => (Throws ExcNotImplemented, tria)
  | _ =>
      match find (fun ip => negb (fst ip <? length (vertices tria))%nat)
                 new_points with
      | Some ip => (Throws (ExcInvalidVertexIndex (fst ip)), tria)
      | None =>
          let S := create_laplace_matrix tria in
          let us :=
            map (fun d =>
                   laplace_solve S
                     (map (fun ip => (fst ip, coord (snd ip) d)) new_points))
                (seq 0 dim) in
          let moved :=
            map (fun i => map (fun u => nth i u 0) us)
                (seq 0 (length (vertices tria))) in
          (Value tt, mkTria moved (cells tria) (boundary_faces tria))
      end
  end.

End LaplaceSmoother.

End GridGenerator.


(** ** Reference definitions for meshes *)

(** The grid point of a multi-index. *)
Fixpoint grid_point (axes : list GridGenerator.Axis) (idx : list nat) : Point :=
  match axes, idx with
  | a :: rest, i :: idx' => GridGenerator.axis_coord a i :: grid_point rest idx'
  | _, _ => []
  end.

(** The position of the vertex with index [v]. *)
Definition position (tria : GridGenerator.Triangulation) (v : nat) : Point :=
  nth v (GridGenerator.vertices tria) [].

(** A face lies in the plane where coordinate [k] is [x]. *)
Definition face_in_plane (tria : GridGenerator.Triangulation)
    (f : GridGenerator.BoundaryFace) (k : nat) (x : R) : Prop :=
  forall v : nat, In v (GridGenerator.face_vertices f) ->
                  coord (position tria v) k = x.

(** An axis of positive length with at least one cell. *)
Definition proper_axis (a : GridGenerator.Axis) : Prop :=
  GridGenerator.lo a < GridGenerator.hi a /\ (1 <= GridGenerator.reps a)%nat.

(** A vertex index and a cell index of a grid. *)
Definition vertex_index (axes : list GridGenerator.Axis) (idx : list nat) : Prop :=
  Forall2 (fun a i => (i <= GridGenerator.reps a)%nat) axes idx.

Definition cell_index (axes : list GridGenerator.Axis) (c : list nat) : Prop :=
  Forall2 (fun a i => (i < GridGenerator.reps a)%nat) axes c.

(** The corner of the reference cell with entry [s] at [k], entry [t] at
    [k'], and 0 elsewhere. *)
Definition corner_with (dim k s k' t : nat) : list nat :=
  map (fun j => if (j =? k)%nat then s else if (j =? k')%nat then t else 0%nat)
      (seq 0 dim).

(** A stand-in for the linear-algebra collaborator in the examples: the
    matrix is represented by the number of unknowns, and the solution takes
    the Dirichlet values and is 0 elsewhere. *)
Definition vertex_count (tria : GridGenerator.Triangulation) : nat :=
  length (GridGenerator.vertices tria).

Definition dirichlet_solve (n : nat) (m : list (nat * R)) : list R :=
  map (fun i => match GridGenerator.lookup i m with
                | Some v => v
                | None => 0
                end) (seq 0 n).

Definition unit_square : GridGenerator.Triangulation :=
  GridGenerator.mkTria
    [[0; 0]; [1; 0]; [0; 1]; [1; 1]]
    [GridGenerator.mkCell [0; 1; 2; 3]%nat 0]
    [GridGenerator.mkFace [0; 2]%nat 0; GridGenerator.mkFace [1; 3]%nat 0;
     GridGenerator.mkFace [0; 1]%nat 0; GridGenerator.mkFace [2; 3]%nat 0].


(** The boundary faces of a mesh over the grid of [axes] carry the ids of
    the colorization convention: the mesh has the grid's vertices, each
    boundary face is face 2 k + s of a cell touching the boundary there and
    has id 2 k + s, and every boundary face of the grid is present. *)
Definition colorized (axes : list GridGenerator.Axis)
    (tria : GridGenerator.Triangulation) : Prop :=
  GridGenerator.vertices tria = GridGenerator.grid_points axes /\
  (forall f : GridGenerator.BoundaryFace,
      In f (GridGenerator.boundary_faces tria) ->
      exists (c : list nat) (k s : nat),
        cell_index axes c /\ (k < length axes)%nat /\ (s <= 1)%nat /\
        GridGenerator.on_boundary axes c k s = true /\
        GridGenerator.face_vertices f
        = GridGenerator.face_vertices (GridGenerator.grid_face axes c k s) /\
        GridGenerator.boundary_id f = (2 * k + s)%nat) /\
  (forall f : GridGenerator.BoundaryFace,
      In f (GridGenerator.grid_boundary_faces axes) ->
      exists f' : GridGenerator.BoundaryFace,
        In f' (GridGenerator.boundary_faces tria) /\
        GridGenerator.face_vertices f' = GridGenerator.face_vertices f).

(** The colorization convention of the specification: along every
    coordinate k the box has a boundary face at the minimum and one at the
    maximum, a boundary face at the minimum has id 2 k and one at the
    maximum has id 2 k + 1. *)
Definition colorization_convention (dim : nat) (p1 p2 : Point)
    (tria : GridGenerator.Triangulation) : Prop :=
  forall k : nat, (k < dim)%nat ->
    let lower := Rmin (coord p1 k) (coord p2 k) in
    let upper := Rmax (coord p1 k) (coord p2 k) in
    (exists f, In f (GridGenerator.boundary_faces tria) /\
               face_in_plane tria f k lower) /\
    (exists f, In f (GridGenerator.boundary_faces tria) /\
               face_in_plane tria f k upper) /\
    (forall f, In f (GridGenerator.boundary_faces tria) ->
               (face_in_plane tria f k lower ->
                GridGenerator.boundary_id f = (2 * k)%nat) /\
               (face_in_plane tria f k upper ->
                GridGenerator.boundary_id f = (2 * k + 1)%nat)).

(* ================================================================== *)
(** * Part II.  Properties *)
(* ================================================================== *)

(** ** Points: lengths and algebra *)

Lemma length_origin (n : nat) : length (origin n) = n.
Proof. apply repeat_length. Qed.

Lemma length_set_coord (p : Point) (i : nat) (v : R) :
  length (set_coord p i v) = length p.
Proof.
  revert i; induction p as [|a p IH]; intros [|i]; simpl; auto.
Qed.

Lemma length_padd (p q : Point) :
  length q = length p -> length (padd p q) = length p.
Proof.
  revert q; induction p as [|a p IH]; intros [|b q]; simpl; intros H;
    try discriminate; auto.
Qed.

Lemma length_psub (p q : Point) :
  length q = length p -> length (psub p q) = length p.
Proof.
  revert q; induction p as [|a p IH]; intros [|b q]; simpl; intros H;
    try discriminate; auto.
Qed.

Lemma length_pscale (k : R) (p : Point) : length (pscale k p) = length p.
Proof. apply length_map. Qed.

Lemma padd_origin_l (p : Point) : padd (origin (length p)) p = p.
Proof.
  induction p as [|a p IH]; simpl; auto.
  rewrite Rplus_0_l; f_equal; exact IH.
Qed.

Lemma padd_origin_r (p : Point) : padd p (origin (length p)) = p.
Proof.
  induction p as [|a p IH]; simpl; auto.
  rewrite Rplus_0_r; f_equal; exact IH.
Qed.

Lemma padd_comm (p q : Point) : padd p q = padd q p.
Proof.
  revert q; induction p as [|a p IH]; intros [|b q]; simpl; auto.
  rewrite Rplus_comm; f_equal; apply IH.
Qed.

Lemma padd_assoc (p q r : Point) : padd (padd p q) r = padd p (padd q r).
Proof.
  revert q r; induction p as [|a p IH]; intros [|b q] [|c r]; simpl; auto.
  rewrite Rplus_assoc; f_equal; apply IH.
Qed.

Lemma psub_padd (p q : Point) :
  length q = length p -> psub (padd p q) q = p.
Proof.
  revert q; induction p as [|a p IH]; intros [|b q]; simpl; auto;
    try discriminate.
  intros H; f_equal; [ring | apply IH; lia].
Qed.

Lemma psub_padd_l (p q : Point) :
  length q = length p -> psub (padd q p) q = p.
Proof. intros H; rewrite padd_comm; apply psub_padd; exact H. Qed.

Lemma padd_psub (p q : Point) :
  length q = length p -> padd (psub p q) q = p.
Proof.
  revert q; induction p as [|a p IH]; intros [|b q]; simpl; auto;
    try discriminate.
  intros H; f_equal; [ring | apply IH; lia].
Qed.

Lemma norm_square_nonneg (p : Point) : 0 <= norm_square p.
Proof.
  induction p as [|a p IH]; simpl; [lra | nra].
Qed.

Lemma norm_nonneg (p : Point) : 0 <= norm p.
Proof. apply sqrt_pos. Qed.

Lemma norm_square_pscale (k : R) (p : Point) :
  norm_square (pscale k p) = k * k * norm_square p.
Proof.
  induction p as [|a p IH]; simpl; [ring | ].
  fold (pscale k p); rewrite IH; ring.
Qed.

Lemma norm_pscale (k : R) (p : Point) : norm (pscale k p) = Rabs k * norm p.
Proof.
  unfold norm; rewrite norm_square_pscale.
  rewrite sqrt_mult; [ | nra | apply norm_square_nonneg ].
  f_equal. replace (k * k) with (Rsqr k) by reflexivity.
  apply sqrt_Rsqr_abs.
Qed.

Lemma norm_square_zero (p : Point) :
  norm_square p = 0 -> p = origin (length p).
Proof.
  induction p as [|a p IH]; simpl; auto.
  intros H. pose proof (norm_square_nonneg p) as Hp.
  assert (Ha : a = 0) by nra.
  assert (Hq : norm_square p = 0) by nra.
  rewrite Ha; change (origin (S (length p))) with (0 :: origin (length p)).
  f_equal; apply IH; exact Hq.
Qed.

Lemma norm_square_origin (n : nat) : norm_square (origin n) = 0.
Proof.
  induction n as [|n IH]; [reflexivity | ].
  change (norm_square (origin (S n))) with (0 * 0 + norm_square (origin n)).
  rewrite IH; ring.
Qed.

Lemma norm_zero_iff (p : Point) : norm p = 0 <-> p = origin (length p).
Proof.
  split.
  - intros H; apply norm_square_zero.
    apply sqrt_eq_0; [apply norm_square_nonneg | exact H].
  - intros H; rewrite H; unfold norm.
    rewrite norm_square_origin; apply sqrt_0.
Qed.

Lemma psub_zero_iff (p q : Point) :
  length q = length p -> (psub p q = origin (length p) <-> p = q).
Proof.
  revert q; induction p as [|a p IH]; intros [|b q]; simpl;
    try discriminate; [tauto | ].
  intros H; injection H as H. specialize (IH q H).
  change (origin (S (length p))) with (0 :: origin (length p)). split.
  - intros E; injection E as E1 E2. f_equal; [lra | tauto].
  - intros E; injection E as E1 E2. f_equal; [lra | tauto].
Qed.

(** ** Booleans of comparisons *)

Lemma Rltb_true (a b : R) : a < b -> Rltb a b = true.
Proof. intros H; unfold Rltb; destruct (Rlt_dec a b); tauto. Qed.

Lemma Rltb_false (a b : R) : b <= a -> Rltb a b = false.
Proof. intros H; unfold Rltb; destruct (Rlt_dec a b); auto; lra. Qed.

Lemma Rleb_true (a b : R) : a <= b -> Rleb a b = true.
Proof. intros H; unfold Rleb; destruct (Rle_dec a b); tauto. Qed.

Lemma Rleb_false (a b : R) : b < a -> Rleb a b = false.
Proof. intros H; unfold Rleb; destruct (Rle_dec a b); auto; lra. Qed.

Lemma fdiv_nonzero (a b : R) : b <> 0 -> fdiv a b = Value (a / b).
Proof. intros H; unfold fdiv; destruct (Req_dec_T b 0); tauto. Qed.

Lemma fdiv_zero (a : R) : fdiv a 0 = NotFinite.
Proof. unfold fdiv; destruct (Req_dec_T 0 0); tauto. Qed.

(** ** [atan2] *)

Lemma atan2_pos_x (y x : R) : 0 < x -> atan2 y x = atan (y / x).
Proof. intros H; unfold atan2; destruct (Rlt_dec 0 x); tauto. Qed.

Lemma atan2_neg_x_nonneg_y (y x : R) :
  x < 0 -> 0 <= y -> atan2 y x = atan (y / x) + PI.
Proof.
  intros Hx Hy; unfold atan2.
  destruct (Rlt_dec 0 x); [lra | ].
  destruct (Rlt_dec x 0); [ | lra].
  destruct (Rle_dec 0 y); [reflexivity | lra].
Qed.

Lemma atan2_neg_x_neg_y (y x : R) :
  x < 0 -> y < 0 -> atan2 y x = atan (y / x) - PI.
Proof.
  intros Hx Hy; unfold atan2.
  destruct (Rlt_dec 0 x); [lra | ].
  destruct (Rlt_dec x 0); [ | lra].
  destruct (Rle_dec 0 y); [lra | reflexivity].
Qed.

Lemma atan2_zero_x_pos_y (y : R) : 0 < y -> atan2 y 0 = PI / 2.
Proof.
  intros Hy; unfold atan2.
  destruct (Rlt_dec 0 0); [lra | ].
  destruct (Rlt_dec 0 y); [reflexivity | lra].
Qed.

Lemma atan2_zero_x_neg_y (y : R) : y < 0 -> atan2 y 0 = - (PI / 2).
Proof.
  intros Hy; unfold atan2.
  destruct (Rlt_dec 0 0); [lra | ].
  destruct (Rlt_dec 0 y); [lra | ].
  destruct (Rlt_dec y 0); [reflexivity | lra].
Qed.

Lemma atan2_origin : atan2 0 0 = 0.
Proof.
  unfold atan2.
  destruct (Rlt_dec 0 0); [lra | reflexivity].
Qed.

(** The range of [atan2]. *)
Lemma atan2_range (y x : R) : - PI < atan2 y x <= PI.
Proof.
  pose proof PI_RGT_0 as HPI.
  pose proof (atan_bound (y / x)) as [Hlo Hhi].
  destruct (Rtotal_order x 0) as [Hx | [Hx | Hx]].
  - destruct (Rle_lt_dec 0 y) as [Hy | Hy].
    + rewrite atan2_neg_x_nonneg_y by assumption.
      assert (Hq : y / x <= 0).
      { unfold Rdiv. assert (/ x < 0) by (apply Rinv_lt_0_compat; exact Hx). nra. }
      assert (atan (y / x) <= 0).
      { destruct Hq as [Hq | Hq].
        - left. rewrite <- atan_0. apply atan_increasing; exact Hq.
        - rewrite Hq, atan_0; lra. }
      lra.
    + rewrite atan2_neg_x_neg_y by assumption.
      assert (Hq : 0 < y / x).
      { unfold Rdiv. assert (/ x < 0) by (apply Rinv_lt_0_compat; exact Hx). nra. }
      assert (0 < atan (y / x)).
      { rewrite <- atan_0. apply atan_increasing; exact Hq. }
      lra.
  - subst x. destruct (Rtotal_order y 0) as [Hy | [Hy | Hy]].
    + rewrite atan2_zero_x_neg_y by assumption; lra.
    + subst y; rewrite atan2_origin; lra.
    + rewrite atan2_zero_x_pos_y by assumption; lra.
  - rewrite atan2_pos_x by assumption; lra.
Qed.

(** A non-negative first argument gives an angle in [0, PI]. *)
Lemma atan2_nonneg_y (y x : R) : 0 <= y -> 0 <= atan2 y x <= PI.
Proof.
  intros Hy.
  pose proof PI_RGT_0 as HPI.
  pose proof (atan_bound (y / x)) as [Hlo Hhi].
  destruct (Rtotal_order x 0) as [Hx | [Hx | Hx]].
  - rewrite atan2_neg_x_nonneg_y by assumption.
    assert (Hq : y / x <= 0).
    { unfold Rdiv. assert (/ x < 0) by (apply Rinv_lt_0_compat; exact Hx). nra. }
    assert (atan (y / x) <= 0).
    { destruct Hq as [Hq | Hq].
      - left. rewrite <- atan_0. apply atan_increasing; exact Hq.
      - rewrite Hq, atan_0; lra. }
    lra.
  - subst x. destruct Hy as [Hy | Hy].
    + rewrite atan2_zero_x_pos_y by assumption; lra.
    + subst y; rewrite atan2_origin; lra.
  - rewrite atan2_pos_x by assumption.
    assert (Hq : 0 <= y / x).
    { unfold Rdiv. assert (0 < / x) by (apply Rinv_0_lt_compat; exact Hx). nra. }
    assert (0 <= atan (y / x)).
    { destruct Hq as [Hq | Hq].
      - left. rewrite <- atan_0. apply atan_increasing; exact Hq.
      - rewrite <- Hq, atan_0; lra. }
    lra.
Qed.

Lemma tan_shift_PI (t : R) : cos t <> 0 -> tan (t + PI) = tan t.
Proof.
  intros H; unfold tan. rewrite neg_sin, neg_cos. field. exact H.
Qed.

(** [atan2] inverts the polar parametrisation on (-PI, PI]. *)
Lemma atan2_polar (rho theta : R) :
  0 < rho -> - PI < theta <= PI ->
  atan2 (rho * sin theta) (rho * cos theta) = theta.
Proof.
  intros Hrho [Hlo Hhi].
  pose proof PI_RGT_0 as HPI.
  destruct (Rtotal_order theta (- (PI / 2))) as [H1 | [H1 | H1]].
  - (* third quadrant *)
    assert (Hc : 0 < cos (theta + PI)) by (apply cos_gt_0; lra).
    assert (Hs : sin theta < 0) by (apply sin_lt_0_var; lra).
    rewrite neg_cos in Hc.
    rewrite atan2_neg_x_neg_y by nra.
    replace (rho * sin theta / (rho * cos theta)) with (tan theta)
      by (unfold tan; field; split; lra).
    rewrite <- (tan_shift_PI theta) by lra.
    rewrite atan_tan by lra. lra.
  - subst theta. rewrite cos_neg, sin_neg, cos_PI2, sin_PI2.
    rewrite Rmult_0_r. apply atan2_zero_x_neg_y. lra.
  - destruct (Rtotal_order theta (PI / 2)) as [H2 | [H2 | H2]].
    + assert (Hc : 0 < cos theta) by (apply cos_gt_0; lra).
      rewrite atan2_pos_x by nra.
      replace (rho * sin theta / (rho * cos theta)) with (tan theta)
        by (unfold tan; field; split; lra).
      apply atan_tan; lra.
    + subst theta. rewrite cos_PI2, sin_PI2.
      rewrite Rmult_0_r. apply atan2_zero_x_pos_y. lra.
    + assert (Hc : cos theta < 0) by (apply cos_lt_0; lra).
      assert (Hs : 0 <= sin theta) by (apply sin_ge_0; lra).
      rewrite atan2_neg_x_nonneg_y by nra.
      replace (rho * sin theta / (rho * cos theta)) with (tan theta)
        by (unfold tan; field; split; lra).
      replace theta with ((theta - PI) + PI) at 1 by ring.
      assert (Hc' : cos (theta - PI) <> 0).
      { replace theta with ((theta - PI) + PI) in Hc by ring.
        rewrite neg_cos in Hc. lra. }
      rewrite tan_shift_PI by exact Hc'.
      rewrite atan_tan by lra. lra.
Qed.

Lemma cos_minus_PI (a : R) : cos (a - PI) = - cos a.
Proof.
  replace a with ((a - PI) + PI) at 2 by ring. rewrite neg_cos. ring.
Qed.

Lemma sin_minus_PI (a : R) : sin (a - PI) = - sin a.
Proof.
  replace a with ((a - PI) + PI) at 2 by ring. rewrite neg_sin. ring.
Qed.

Lemma sqrt_one_plus_sqr_pos (t : R) : 0 < sqrt (1 + t²).
Proof. apply sqrt_lt_R0. pose proof (Rle_0_sqr t). lra. Qed.

Lemma sqrt_sum_squares (x y : R) :
  x <> 0 -> sqrt (x * x + y * y) = Rabs x * sqrt (1 + (y / x)²).
Proof.
  intros Hx.
  replace (x * x + y * y) with (Rsqr x * (1 + (y / x)²))
    by (unfold Rsqr; field; exact Hx).
  rewrite sqrt_mult.
  - rewrite sqrt_Rsqr_abs; reflexivity.
  - apply Rle_0_sqr.
  - pose proof (Rle_0_sqr (y / x)); lra.
Qed.

(** The polar coordinates recovered through [atan2] give the point back. *)
Lemma atan2_cos_sin (x y : R) :
  sqrt (x * x + y * y) * cos (atan2 y x) = x /\
  sqrt (x * x + y * y) * sin (atan2 y x) = y.
Proof.
  pose proof (sqrt_one_plus_sqr_pos (y / x)) as Hs.
  destruct (Rtotal_order x 0) as [Hx | [Hx | Hx]].
  - rewrite sqrt_sum_squares by lra.
    rewrite Rabs_left by exact Hx.
    destruct (Rle_lt_dec 0 y) as [Hy | Hy].
    + rewrite atan2_neg_x_nonneg_y by assumption.
      rewrite neg_cos, neg_sin, cos_atan, sin_atan.
      split; field; repeat split; lra.
    + rewrite atan2_neg_x_neg_y by assumption.
      rewrite cos_minus_PI, sin_minus_PI, cos_atan, sin_atan.
      split; field; repeat split; lra.
  - subst x. replace (0 * 0 + y * y) with (Rsqr y) by (unfold Rsqr; ring).
    rewrite sqrt_Rsqr_abs.
    destruct (Rtotal_order y 0) as [Hy | [Hy | Hy]].
    + rewrite atan2_zero_x_neg_y by assumption.
      rewrite cos_neg, sin_neg, cos_PI2, sin_PI2, Rabs_left by exact Hy.
      split; ring.
    + subst y. rewrite Rabs_R0. split; ring.
    + rewrite atan2_zero_x_pos_y by assumption.
      rewrite cos_PI2, sin_PI2, Rabs_right by lra.
      split; ring.
  - rewrite sqrt_sum_squares by lra.
    rewrite Rabs_right by lra.
    rewrite atan2_pos_x by assumption.
    rewrite cos_atan, sin_atan.
    split; field; repeat split; lra.
Qed.

(** ** The degenerate-origin rule of [push_forward] *)

(** C5.  A chart point whose radius is at least 0 and not above 1e-10 (so
    every radius below the threshold) is pushed forward to exactly the
    centre of the chart, whatever its angular coordinates are and in every
    ambient dimension: the result does not depend on any sine or cosine. *)
Theorem push_forward_degenerate_origin :
  forall (M : SphericalManifold.t) (spherical_point : Point),
    length (SphericalManifold.center M) = SphericalManifold.spacedim M ->
    0 <= coord spherical_point 0 ->
    coord spherical_point 0 <= 1e-10 ->
    SphericalManifold.push_forward M spherical_point
    = Value (SphericalManifold.center M).
Proof.
  intros M sp Hlen Hge Hle.
  unfold SphericalManifold.push_forward.
  rewrite (Rleb_true _ _ Hge); simpl.
  rewrite (Rltb_false _ _ Hle); simpl.
  rewrite <- Hlen; rewrite padd_origin_l; reflexivity.
Qed.

Lemma push_forward_degenerate_origin_witness :
  SphericalManifold.push_forward
    (SphericalManifold.mk 3 [1; 2; 3] (SphericalManifold.get_periodicity 3))
    [0; 1; 5]
  = Value [1; 2; 3].
Proof.
  apply (push_forward_degenerate_origin
           (SphericalManifold.mk 3 [1; 2; 3] (SphericalManifold.get_periodicity 3))
           [0; 1; 5]).
  - reflexivity.
  - unfold coord; simpl; lra.
  - unfold coord; simpl; lra.
Defined.

(** ** The chart maps in closed form *)

Lemma add_period_range (a : R) :
  - PI < a <= PI -> 0 <= add_period_if_negative a < 2 * PI.
Proof.
  intros [Hlo Hhi]; pose proof PI_RGT_0.
  unfold add_period_if_negative; destruct (Rlt_dec a 0); lra.
Qed.

Lemma cos_add_period (a : R) : cos (add_period_if_negative a) = cos a.
Proof.
  unfold add_period_if_negative; destruct (Rlt_dec a 0); [ | reflexivity].
  rewrite cos_plus, cos_2PI, sin_2PI; ring.
Qed.

Lemma sin_add_period (a : R) : sin (add_period_if_negative a) = sin a.
Proof.
  unfold add_period_if_negative; destruct (Rlt_dec a 0); [ | reflexivity].
  rewrite sin_plus, cos_2PI, sin_2PI; ring.
Qed.

Lemma pull_back_2d (c per q : Point) :
  let R := psub q c in
  SphericalManifold.pull_back (SphericalManifold.mk 2 c per) q
  = Value [norm R; add_period_if_negative (atan2 (coord R 1) (coord R 0))].
Proof.
  intros R0. unfold SphericalManifold.pull_back; simpl. fold R0.
  set (a := atan2 (coord R0 1) (coord R0 0)).
  change (coord [norm R0; a] 1) with a.
  unfold add_period_if_negative, Rltb.
  destruct (Rlt_dec a 0); reflexivity.
Qed.

Lemma pull_back_3d (c per q : Point) :
  let R := psub q c in
  let x := coord R 0 in
  let y := coord R 1 in
  let z := coord R 2 in
  SphericalManifold.pull_back (SphericalManifold.mk 3 c per) q
  = Value [norm R; atan2 (sqrt (x * x + y * y)) z;
           add_period_if_negative (atan2 y x)].
Proof.
  intros R0 x y z. unfold SphericalManifold.pull_back; simpl. fold R0.
  fold x y z. set (a := atan2 y x).
  change (coord [norm R0; 0; a] 2) with a.
  unfold add_period_if_negative, Rltb.
  destruct (Rlt_dec a 0); reflexivity.
Qed.

Lemma push_forward_2d (c per sp : Point) :
  1e-10 < coord sp 0 ->
  SphericalManifold.push_forward (SphericalManifold.mk 2 c per) sp
  = Value (padd [coord sp 0 * cos (coord sp 1);
                 coord sp 0 * sin (coord sp 1)] c).
Proof.
  intros H. unfold SphericalManifold.push_forward.
  rewrite Rleb_true by lra. rewrite Rltb_true by exact H. reflexivity.
Qed.

Lemma push_forward_3d (c per sp : Point) :
  1e-10 < coord sp 0 ->
  SphericalManifold.push_forward (SphericalManifold.mk 3 c per) sp
  = Value (padd [coord sp 0 * sin (coord sp 1) * cos (coord sp 2);
                 coord sp 0 * sin (coord sp 1) * sin (coord sp 2);
                 coord sp 0 * cos (coord sp 1)] c).
Proof.
  intros H. unfold SphericalManifold.push_forward.
  rewrite Rleb_true by lra. rewrite Rltb_true by exact H. reflexivity.
Qed.

Lemma push_forward_small (M : SphericalManifold.t) (sp : Point) :
  length (SphericalManifold.center M) = SphericalManifold.spacedim M ->
  0 <= coord sp 0 <= 1e-10 ->
  SphericalManifold.push_forward M sp = Value (SphericalManifold.center M).
Proof.
  intros Hlen [Hge Hle]. unfold SphericalManifold.push_forward.
  rewrite (Rleb_true _ _ Hge); simpl.
  rewrite (Rltb_false _ _ Hle); simpl.
  rewrite <- Hlen; rewrite padd_origin_l; reflexivity.
Qed.

(** ** Periodic normalisation of the angles returned by [pull_back] *)

Lemma atan2_fourth_quadrant (x y : R) :
  0 < x -> y < 0 ->
  add_period_if_negative (atan2 y x) = 2 * PI - PI / 2 + atan (x / - y).
Proof.
  intros Hx Hy.
  rewrite atan2_pos_x by exact Hx.
  assert (Hr : 0 < x / - y).
  { apply Rdiv_lt_0_compat; lra. }
  assert (Hq : y / x = - / (x / - y)) by (field; lra).
  assert (Ha : atan (y / x) = - (PI / 2 - atan (x / - y))).
  { rewrite Hq, atan_opp, atan_inv by exact Hr. reflexivity. }
  pose proof (atan_bound (x / - y)) as [_ Hhi].
  unfold add_period_if_negative.
  destruct (Rlt_dec (atan (y / x)) 0) as [Hneg | Hnn]; lra.
Qed.

(** C4.  [pull_back] returns, in 2-D, the radius and the angle
    [atan2 y x] to which 2 PI is added when it is negative, and in 3-D the
    radius, the polar angle [atan2 (sqrt (x^2 + y^2)) z] as [atan2] gives it,
    and the azimuthal angle normalised in the same way.  The normalised
    angle lies in [0, 2 PI), the polar angle in [0, PI].  A point with
    positive x and negative y gets the angle 2 PI - PI/2 + atan (x / -y),
    between 2 PI - PI/2 and 2 PI, never a negative one. *)
Theorem pull_back_angles_normalized :
  forall (c per q : Point),
    let R := psub q c in
    let x := coord R 0 in
    let y := coord R 1 in
    let z := coord R 2 in
    let theta := atan2 (sqrt (x * x + y * y)) z in
    let angle := add_period_if_negative (atan2 y x) in
    SphericalManifold.pull_back (SphericalManifold.mk 2 c per) q
    = Value [norm R; angle] /\
    SphericalManifold.pull_back (SphericalManifold.mk 3 c per) q
    = Value [norm R; theta; angle] /\
    angle = (if Rlt_dec (atan2 y x) 0 then atan2 y x + 2 * PI else atan2 y x) /\
    0 <= angle < 2 * PI /\
    0 <= theta <= PI /\
    (0 < x -> y < 0 ->
     atan2 y x < 0 /\
     angle = 2 * PI - PI / 2 + atan (x / - y) /\
     2 * PI - PI / 2 < angle < 2 * PI).
Proof.
  intros c per q R0 x y z theta angle.
  split; [apply pull_back_2d | ].
  split; [apply pull_back_3d | ].
  split; [reflexivity | ].
  split; [apply add_period_range, atan2_range | ].
  split; [apply atan2_nonneg_y, sqrt_pos | ].
  intros Hx Hy.
  pose proof (atan2_fourth_quadrant x y Hx Hy) as Hq.
  fold angle in Hq.
  assert (Hr : 0 < x / - y) by (apply Rdiv_lt_0_compat; lra).
  pose proof (atan_bound (x / - y)) as [_ Hhi].
  assert (Hpos : 0 < atan (x / - y)).
  { rewrite <- atan_0. apply atan_increasing; exact Hr. }
  pose proof PI_RGT_0.
  split; [ | split; [exact Hq | lra]].
  rewrite atan2_pos_x by exact Hx.
  assert (Hlt : y / x < 0).
  { unfold Rdiv. assert (0 < / x) by (apply Rinv_0_lt_compat; exact Hx). nra. }
  rewrite <- atan_0. apply atan_increasing; exact Hlt.
Qed.

Lemma pull_back_angles_normalized_witness :
  let c := [0; 0; 0] in
  let q := [1; -1; 0] in
  let R := psub q c in
  atan2 (coord R 1) (coord R 0) < 0 /\
  add_period_if_negative (atan2 (coord R 1) (coord R 0))
  = 2 * PI - PI / 2 + atan (coord R 0 / - coord R 1).
Proof.
  intros c q R0.
  destruct (pull_back_angles_normalized c [] q)
    as (_ & _ & _ & _ & _ & H).
  assert (Hx : 0 < coord (psub q c) 0) by (unfold coord; simpl; lra).
  assert (Hy : coord (psub q c) 1 < 0) by (unfold coord; simpl; lra).
  destruct (H Hx Hy) as (H1 & H2 & _).
  split; [exact H1 | exact H2].
Defined.

(** ** Round trips between chart and ambient space *)

Lemma sin_minus_2PI (a : R) : sin (a - 2 * PI) = sin a.
Proof.
  replace (a - 2 * PI) with (a - PI - PI) by ring.
  rewrite !sin_minus_PI; ring.
Qed.

Lemma cos_minus_2PI (a : R) : cos (a - 2 * PI) = cos a.
Proof.
  replace (a - 2 * PI) with (a - PI - PI) by ring.
  rewrite !cos_minus_PI; ring.
Qed.

(** The normalised [atan2] inverts the polar parametrisation on [0, 2 PI). *)
Lemma normalized_atan2_polar (rho theta : R) :
  0 < rho -> 0 <= theta < 2 * PI ->
  add_period_if_negative (atan2 (rho * sin theta) (rho * cos theta)) = theta.
Proof.
  intros Hrho [Hlo Hhi]. pose proof PI_RGT_0 as HPI.
  unfold add_period_if_negative.
  destruct (Rle_lt_dec theta PI) as [Hle | Hgt].
  - rewrite atan2_polar by lra.
    destruct (Rlt_dec theta 0); lra.
  - rewrite <- (sin_minus_2PI theta), <- (cos_minus_2PI theta).
    rewrite atan2_polar by lra.
    destruct (Rlt_dec (theta - 2 * PI) 0); lra.
Qed.

Lemma sin2_cos2_mult (a : R) : sin a * sin a + cos a * cos a = 1.
Proof. exact (sin2_cos2 a). Qed.

Lemma norm_polar_2d (rho theta : R) :
  0 <= rho -> norm [rho * cos theta; rho * sin theta] = rho.
Proof.
  intros H. unfold norm; simpl.
  replace (rho * cos theta * (rho * cos theta) +
           (rho * sin theta * (rho * sin theta) + 0))
    with (rho * rho * (sin theta * sin theta + cos theta * cos theta)) by ring.
  rewrite sin2_cos2_mult, Rmult_1_r. apply sqrt_square; exact H.
Qed.

Lemma norm_polar_3d (rho theta phi : R) :
  0 <= rho ->
  norm [rho * sin theta * cos phi; rho * sin theta * sin phi; rho * cos theta]
  = rho.
Proof.
  intros H. unfold norm; simpl.
  replace (rho * sin theta * cos phi * (rho * sin theta * cos phi) +
           (rho * sin theta * sin phi * (rho * sin theta * sin phi) +
            (rho * cos theta * (rho * cos theta) + 0)))
    with (rho * rho *
          (sin theta * sin theta * (sin phi * sin phi + cos phi * cos phi)
           + cos theta * cos theta)) by ring.
  rewrite sin2_cos2_mult, Rmult_1_r, sin2_cos2_mult, Rmult_1_r.
  apply sqrt_square; exact H.
Qed.

Lemma sqrt_polar_xy (rho theta phi : R) :
  0 <= rho * sin theta ->
  sqrt (rho * sin theta * cos phi * (rho * sin theta * cos phi) +
        rho * sin theta * sin phi * (rho * sin theta * sin phi))
  = rho * sin theta.
Proof.
  intros H.
  replace (rho * sin theta * cos phi * (rho * sin theta * cos phi) +
           rho * sin theta * sin phi * (rho * sin theta * sin phi))
    with ((rho * sin theta) * (rho * sin theta) *
          (sin phi * sin phi + cos phi * cos phi)) by ring.
  rewrite sin2_cos2_mult, Rmult_1_r. apply sqrt_square; exact H.
Qed.

(** In 2-D, a chart point with radius above the threshold and angle in
    [0, 2 PI) is recovered exactly. *)
Lemma pull_back_push_forward_2d (c per : Point) (rho theta : R) :
  length c = 2%nat -> 1e-10 < rho -> 0 <= theta < 2 * PI ->
  let M := SphericalManifold.mk 2 c per in
  (p <- SphericalManifold.push_forward M [rho; theta] ;;
   SphericalManifold.pull_back M p) = Value [rho; theta].
Proof.
  intros Hc Hrho Htheta M.
  unfold M. rewrite push_forward_2d by exact Hrho.
  unfold bind. rewrite pull_back_2d.
  change (coord [rho; theta] 0) with rho.
  change (coord [rho; theta] 1) with theta.
  rewrite psub_padd by exact Hc.
  change (coord [rho * cos theta; rho * sin theta] 0) with (rho * cos theta).
  change (coord [rho * cos theta; rho * sin theta] 1) with (rho * sin theta).
  rewrite norm_polar_2d by lra.
  rewrite normalized_atan2_polar by (try exact Htheta; lra).
  reflexivity.
Qed.

(** In 3-D, a chart point with radius above the threshold, polar angle
    strictly between 0 and PI and azimuthal angle in [0, 2 PI) is recovered
    exactly. *)
Lemma pull_back_push_forward_3d (c per : Point) (rho theta phi : R) :
  length c = 3%nat -> 1e-10 < rho -> 0 < theta < PI -> 0 <= phi < 2 * PI ->
  let M := SphericalManifold.mk 3 c per in
  (p <- SphericalManifold.push_forward M [rho; theta; phi] ;;
   SphericalManifold.pull_back M p) = Value [rho; theta; phi].
Proof.
  intros Hc Hrho Htheta Hphi M.
  unfold M. rewrite push_forward_3d by exact Hrho.
  unfold bind. rewrite pull_back_3d.
  change (coord [rho; theta; phi] 0) with rho.
  change (coord [rho; theta; phi] 1) with theta.
  change (coord [rho; theta; phi] 2) with phi.
  rewrite psub_padd by exact Hc.
  set (v := [rho * sin theta * cos phi; rho * sin theta * sin phi;
             rho * cos theta]).
  change (coord v 0) with (rho * sin theta * cos phi).
  change (coord v 1) with (rho * sin theta * sin phi).
  change (coord v 2) with (rho * cos theta).
  unfold v. rewrite norm_polar_3d by lra.
  assert (Hs : 0 < sin theta) by (apply sin_gt_0; lra).
  assert (Hrs : 0 < rho * sin theta) by nra.
  rewrite sqrt_polar_xy by lra.
  rewrite atan2_polar by lra.
  rewrite normalized_atan2_polar by (try exact Hphi; lra).
  reflexivity.
Qed.

Lemma norm_psub_sym (p q : Point) : norm (psub p q) = norm (psub q p).
Proof.
  unfold norm; f_equal.
  revert q; induction p as [|a p IH]; intros [|b q]; simpl; auto.
  rewrite IH; ring.
Qed.

Lemma norm_psub_self (p : Point) : norm (psub p p) = 0.
Proof.
  unfold norm. replace (norm_square (psub p p)) with 0; [apply sqrt_0 | ].
  induction p as [|a p IH]; simpl; [reflexivity | rewrite <- IH; ring].
Qed.

(** In 2-D, pulling an ambient point back and pushing it forward returns
    the point itself when it is farther than 1e-10 from the centre, and the
    centre otherwise. *)
Lemma push_forward_pull_back_2d (c per q : Point) :
  length c = 2%nat -> length q = 2%nat ->
  let M := SphericalManifold.mk 2 c per in
  (p <- SphericalManifold.pull_back M q ;; SphericalManifold.push_forward M p)
  = Value (if Rlt_dec 1e-10 (norm (psub q c)) then q else c).
Proof.
  intros Hc Hq M. unfold M. rewrite pull_back_2d. unfold bind.
  set (R0 := psub q c).
  set (a := add_period_if_negative (atan2 (coord R0 1) (coord R0 0))).
  destruct (Rlt_dec 1e-10 (norm R0)) as [Hbig | Hsmall].
  - rewrite push_forward_2d by exact Hbig.
    change (coord [norm R0; a] 0) with (norm R0).
    change (coord [norm R0; a] 1) with a.
    unfold a. rewrite cos_add_period, sin_add_period.
    destruct q as [|q0 [|q1 [|q2 q]]]; try discriminate.
    destruct c as [|c0 [|c1 [|c2 c]]]; try discriminate.
    unfold R0, norm, coord; simpl.
    replace ((q0 - c0) * (q0 - c0) + ((q1 - c1) * (q1 - c1) + 0))
      with ((q0 - c0) * (q0 - c0) + (q1 - c1) * (q1 - c1)) by ring.
    destruct (atan2_cos_sin (q0 - c0) (q1 - c1)) as [Hcos Hsin].
    rewrite Hcos, Hsin. do 3 f_equal; ring.
  - rewrite push_forward_small; [reflexivity | exact Hc | ].
    change (coord [norm R0; a] 0) with (norm R0).
    split; [apply norm_nonneg | lra].
Qed.

(** The same in 3-D. *)
Lemma push_forward_pull_back_3d (c per q : Point) :
  length c = 3%nat -> length q = 3%nat ->
  let M := SphericalManifold.mk 3 c per in
  (p <- SphericalManifold.pull_back M q ;; SphericalManifold.push_forward M p)
  = Value (if Rlt_dec 1e-10 (norm (psub q c)) then q else c).
Proof.
  intros Hc Hq M. unfold M. rewrite pull_back_3d. unfold bind.
  set (R0 := psub q c).
  set (x := coord R0 0). set (y := coord R0 1). set (z := coord R0 2).
  set (s := sqrt (x * x + y * y)).
  set (a := add_period_if_negative (atan2 y x)).
  destruct (Rlt_dec 1e-10 (norm R0)) as [Hbig | Hsmall].
  - rewrite push_forward_3d by exact Hbig.
    change (coord [norm R0; atan2 s z; a] 0) with (norm R0).
    change (coord [norm R0; atan2 s z; a] 1) with (atan2 s z).
    change (coord [norm R0; atan2 s z; a] 2) with a.
    unfold a. rewrite cos_add_period, sin_add_period.
    assert (Hss : s * s = x * x + y * y).
    { unfold s. apply sqrt_sqrt. nra. }
    assert (Hn : norm R0 = sqrt (z * z + s * s)).
    { destruct q as [|q0 [|q1 [|q2 [|q3 q]]]]; try discriminate.
      destruct c as [|c0 [|c1 [|c2 [|c3 c]]]]; try discriminate.
      rewrite Hss. unfold x, y, z, R0, norm, coord; simpl. f_equal; ring. }
    rewrite Hn.
    destruct (atan2_cos_sin z s) as [Hcos Hsin].
    destruct (atan2_cos_sin x y) as [Hcos' Hsin'].
    fold s in Hcos', Hsin'.
    rewrite Hcos, Hsin, Hcos', Hsin'.
    destruct q as [|q0 [|q1 [|q2 [|q3 q]]]]; try discriminate.
    destruct c as [|c0 [|c1 [|c2 [|c3 c]]]]; try discriminate.
    unfold x, y, z, R0, coord; simpl.
    do 2 f_equal; [ring | f_equal; [ring | f_equal; ring]].
  - rewrite push_forward_small; [reflexivity | exact Hc | ].
    change (coord [norm R0; atan2 s z; a] 0) with (norm R0).
    split; [apply norm_nonneg | lra].
Qed.

(** ** The averaging rule of [get_new_point] *)

Lemma length_weighted_point (n : nat) (ps : list Point) (ws : list R) :
  Forall (fun p => length p = n) ps ->
  length (weighted_point n ps ws) = n.
Proof.
  intros H; revert ws; induction H as [|p ps Hp Hps IH]; intros ws.
  - destruct ws; apply length_origin.
  - destruct ws as [|w ws]; simpl; [apply length_origin | ].
    rewrite length_padd; rewrite length_pscale; auto.
    rewrite IH; auto.
Qed.

Lemma weighted_radius_nonneg (c : Point) (ps : list Point) (ws : list R) :
  Forall (fun w => 0 <= w) ws -> 0 <= weighted_radius c ps ws.
Proof.
  intros H; revert ps; induction H as [|w ws Hw Hws IH]; intros ps.
  - destruct ps; simpl; lra.
  - destruct ps as [|p ps]; simpl; [lra | ].
    pose proof (norm_nonneg (psub p c)). specialize (IH ps). nra.
Qed.

(** The loop, started anywhere in the quadrature, adds the remaining terms
    of the two sums to its accumulators. *)
Lemma accumulate_loop (M : SphericalManifold.t) (ps : list Point) :
  forall (ws : list R) (pre_p : list Point) (pre_w : list R)
         (rho_average : R) (mid_point : Point),
    length pre_w = length pre_p ->
    length ws = length ps ->
    length mid_point = SphericalManifold.spacedim M ->
    Forall (fun p => length p = SphericalManifold.spacedim M) ps ->
    fold_left
      (SphericalManifold.accumulate M (mkQuadrature (pre_p ++ ps) (pre_w ++ ws)))
      (seq (length pre_p) (length ps)) (rho_average, mid_point)
    = (rho_average + weighted_radius (SphericalManifold.center M) ps ws,
       padd mid_point (weighted_point (SphericalManifold.spacedim M) ps ws)).
Proof.
  induction ps as [|p ps IH]; intros ws pre_p pre_w r m Hpre Hlen Hm Hall.
  - destruct ws; [ | discriminate]. simpl.
    rewrite Rplus_0_r, <- Hm, padd_origin_r. reflexivity.
  - destruct ws as [|w ws]; [discriminate | ].
    injection Hlen as Hlen. inversion Hall as [|? ? Hp Hps]; subst.
    cbn [length seq fold_left].
    unfold SphericalManifold.accumulate at 2.
    unfold weight, point; cbn [weights quadrature_points].
    assert (Hw : nth (length pre_p) (pre_w ++ w :: ws) 0 = w)
      by (rewrite <- Hpre; apply nth_middle).
    rewrite Hw, nth_middle.
    replace (pre_p ++ p :: ps) with ((pre_p ++ [p]) ++ ps)
      by (rewrite <- app_assoc; reflexivity).
    replace (pre_w ++ w :: ws) with ((pre_w ++ [w]) ++ ws)
      by (rewrite <- app_assoc; reflexivity).
    replace (S (length pre_p)) with (length (pre_p ++ [p]))
      by (rewrite length_app; simpl; lia).
    rewrite IH.
    + cbn [weighted_radius weighted_point].
      rewrite Rplus_assoc, padd_assoc. reflexivity.
    + rewrite !length_app; simpl; lia.
    + exact Hlen.
    + rewrite length_padd; [exact Hm | ].
      rewrite length_pscale; congruence.
    + exact Hps.
Qed.

(** Outside ambient dimension 2, [get_new_point] divides the weighted
    average radius by the distance of the weighted average point from the
    centre, and moves the centre by the average offset scaled by that
    quotient. *)
Lemma get_new_point_sums (M : SphericalManifold.t) (quad : Quadrature) :
  let n := SphericalManifold.spacedim M in
  let c := SphericalManifold.center M in
  let rho_bar := weighted_radius c (quadrature_points quad) (weights quad) in
  let m := weighted_point n (quadrature_points quad) (weights quad) in
  n <> 2%nat -> well_formed n quad ->
  SphericalManifold.get_new_point M quad
  = (scale <- fdiv rho_bar (norm (psub m c)) ;;
     Value (padd c (pscale scale (psub m c)))).
Proof.
  intros n c rho_bar m Hn [Hlen Hall].
  unfold SphericalManifold.get_new_point.
  destruct (Nat.eqb_spec (SphericalManifold.spacedim M) 2) as [E | _];
    [contradiction | ].
  destruct quad as [ps ws]; cbn [quadrature_points weights] in *.
  unfold size; cbn [quadrature_points].
  pose proof (accumulate_loop M ps ws [] [] 0 (origin n) eq_refl Hlen
                (length_origin n) Hall) as Hloop.
  cbn [app length] in Hloop. subst rho_bar m c n.
  assert (Hz : padd (origin (SphericalManifold.spacedim M))
                 (weighted_point (SphericalManifold.spacedim M) ps ws)
               = weighted_point (SphericalManifold.spacedim M) ps ws).
  { rewrite <- (length_weighted_point _ ps ws Hall) at 1.
    apply padd_origin_l. }
  rewrite Hloop, Rplus_0_l, Hz. reflexivity.
Qed.

Lemma norm_offset_zero_iff (m c : Point) :
  length c = length m -> (norm (psub m c) = 0 <-> m = c).
Proof.
  intros H. rewrite norm_zero_iff, length_psub by exact H.
  apply psub_zero_iff; exact H.
Qed.

Lemma norm_rescaled (rho_bar : R) (v : Point) :
  norm v <> 0 -> norm (pscale (rho_bar / norm v) v) = Rabs rho_bar.
Proof.
  intros H. pose proof (norm_nonneg v) as Hv.
  rewrite norm_pscale. unfold Rdiv.
  rewrite Rabs_mult, Rabs_inv, (Rabs_right (norm v)) by lra.
  field; exact H.
Qed.

Section AveragingRule.

Variable M : SphericalManifold.t.
Variable quad : Quadrature.

Let n := SphericalManifold.spacedim M.
Let c := SphericalManifold.center M.
Let rho_bar := weighted_radius c (quadrature_points quad) (weights quad).
Let m := weighted_point n (quadrature_points quad) (weights quad).

Hypothesis Hdim : n <> 2%nat.
Hypothesis Hquad : well_formed n quad.
Hypothesis Hcenter : length c = n.

Lemma length_average : length c = length m.
Proof.
  unfold m. rewrite length_weighted_point; [exact Hcenter | apply Hquad].
Qed.

(** When the weighted average point differs from the centre, the result is
    the centre moved by the rescaled offset, at distance |rho_bar|. *)
Lemma get_new_point_value :
  m <> c ->
  SphericalManifold.get_new_point M quad
  = Value (padd c (pscale (rho_bar / norm (psub m c)) (psub m c))) /\
  norm (pscale (rho_bar / norm (psub m c)) (psub m c)) = Rabs rho_bar /\
  norm (psub (padd c (pscale (rho_bar / norm (psub m c)) (psub m c))) c)
  = Rabs rho_bar.
Proof.
  intros Hne.
  assert (Hnz : norm (psub m c) <> 0).
  { intros E. apply Hne. apply norm_offset_zero_iff; [apply length_average | exact E]. }
  split; [ | split].
  - rewrite (get_new_point_sums M quad Hdim Hquad).
    fold n c rho_bar m. rewrite fdiv_nonzero by exact Hnz. reflexivity.
  - apply norm_rescaled; exact Hnz.
  - rewrite psub_padd_l; [apply norm_rescaled; exact Hnz | ].
    rewrite length_pscale, length_psub; apply length_average.
Qed.

(** When the weighted average point is the centre, the divisor is zero and
    no real point results. *)
Lemma get_new_point_not_finite :
  m = c -> SphericalManifold.get_new_point M quad = NotFinite.
Proof.
  intros E.
  rewrite (get_new_point_sums M quad Hdim Hquad).
  fold n c rho_bar m.
  assert (Hz : norm (psub m c) = 0).
  { apply norm_offset_zero_iff; [apply length_average | exact E]. }
  rewrite Hz, fdiv_zero. reflexivity.
Qed.

End AveragingRule.

Ltac point_eq :=
  simpl; repeat (apply (f_equal2 (@cons R)); [lra | ]); reflexivity.

Lemma norm_on_x_axis (a b d : R) : b = 0 -> d = 0 -> norm [a; b; d] = Rabs a.
Proof.
  intros -> ->. unfold norm; simpl.
  replace (a * a + (0 * 0 + (0 * 0 + 0))) with (Rsqr a) by (unfold Rsqr; ring).
  apply sqrt_Rsqr_abs.
Qed.

Lemma well_formed_antipodal : well_formed 3 antipodal_quadrature.
Proof. split; [reflexivity | repeat constructor]. Qed.

Lemma well_formed_extrapolating : well_formed 3 extrapolating_quadrature.
Proof. split; [reflexivity | repeat constructor]. Qed.

(** Two antipodal points with weight 1/2 each: the weighted average is the
    centre, and [get_new_point] yields no real point. *)
Lemma antipodal_not_finite :
  SphericalManifold.get_new_point unit_sphere antipodal_quadrature = NotFinite.
Proof.
  apply get_new_point_not_finite.
  - discriminate.
  - exact well_formed_antipodal.
  - reflexivity.
  - point_eq.
Qed.

Lemma antipodal_radii :
  Forall (fun p => norm (psub p (SphericalManifold.center unit_sphere)) = 1)
         (quadrature_points antipodal_quadrature).
Proof.
  repeat constructor; simpl; rewrite norm_on_x_axis by lra;
    unfold Rabs; destruct (Rcase_abs _); lra.
Qed.

Lemma extrapolating_radius :
  weighted_radius (SphericalManifold.center unit_sphere)
    (quadrature_points extrapolating_quadrature)
    (weights extrapolating_quadrature) = -1.
Proof.
  simpl. rewrite !norm_on_x_axis by lra.
  unfold Rabs; repeat destruct (Rcase_abs _); lra.
Qed.

Lemma well_formed_quarter : well_formed 3 quarter_quadrature.
Proof. split; [reflexivity | repeat constructor]. Qed.







Lemma point_eq_dec (p q : Point) : {p = q} + {p <> q}.
Proof. apply list_eq_dec, Req_dec_T. Qed.



(** ** Round trips: the statement for both dimensions *)

Lemma add_period_nonneg (a : R) : 0 <= a -> add_period_if_negative a = a.
Proof.
  intros H; unfold add_period_if_negative; destruct (Rlt_dec a 0); lra.
Qed.

(** What [push_forward] followed by [pull_back] returns for any angle, in
    2-D and in 3-D: the radius, and the angles of the pushed point as
    [pull_back] normalises them. *)
Lemma pull_back_push_forward_2d_closed (c per : Point) (rho theta : R) :
  length c = 2%nat -> 1e-10 < rho ->
  let M := SphericalManifold.mk 2 c per in
  (p <- SphericalManifold.push_forward M [rho; theta] ;;
   SphericalManifold.pull_back M p)
  = Value [rho;
           add_period_if_negative (atan2 (rho * sin theta) (rho * cos theta))].
Proof.
  intros Hc Hrho M.
  unfold M. rewrite push_forward_2d by exact Hrho.
  unfold bind. rewrite pull_back_2d.
  change (coord [rho; theta] 0) with rho.
  change (coord [rho; theta] 1) with theta.
  rewrite psub_padd by exact Hc.
  change (coord [rho * cos theta; rho * sin theta] 0) with (rho * cos theta).
  change (coord [rho * cos theta; rho * sin theta] 1) with (rho * sin theta).
  rewrite norm_polar_2d by lra.
  reflexivity.
Qed.

Lemma pull_back_push_forward_3d_closed (c per : Point) (rho theta phi : R) :
  length c = 3%nat -> 1e-10 < rho ->
  let M := SphericalManifold.mk 3 c per in
  let x := rho * sin theta * cos phi in
  let y := rho * sin theta * sin phi in
  let z := rho * cos theta in
  (p <- SphericalManifold.push_forward M [rho; theta; phi] ;;
   SphericalManifold.pull_back M p)
  = Value [rho; atan2 (sqrt (x * x + y * y)) z;
           add_period_if_negative (atan2 y x)].
Proof.
  intros Hc Hrho M x y z.
  unfold M. rewrite push_forward_3d by exact Hrho.
  unfold bind. rewrite pull_back_3d.
  change (coord [rho; theta; phi] 0) with rho.
  change (coord [rho; theta; phi] 1) with theta.
  change (coord [rho; theta; phi] 2) with phi.
  rewrite psub_padd by exact Hc.
  fold x y z.
  change (coord [x; y; z] 0) with x.
  change (coord [x; y; z] 1) with y.
  change (coord [x; y; z] 2) with z.
  unfold x, y, z. rewrite norm_polar_3d by lra.
  reflexivity.
Qed.

(** On the polar axis the pushed point has x = y = 0, and [pull_back] gives
    it the azimuthal angle 0. *)
Lemma azimuth_on_axis (rho theta phi : R) :
  sin theta = 0 ->
  add_period_if_negative
    (atan2 (rho * sin theta * sin phi) (rho * sin theta * cos phi)) = 0.
Proof.
  intros Hs. rewrite Hs.
  replace (rho * 0 * sin phi) with 0 by ring.
  replace (rho * 0 * cos phi) with 0 by ring.
  rewrite atan2_origin. apply add_period_nonneg; lra.
Qed.

(** In 2-D the chart points that come back unchanged are those with the
    angle in [0, 2 PI). *)
Lemma pull_back_push_forward_2d_iff (c per : Point) (rho theta : R) :
  length c = 2%nat -> 1e-10 < rho ->
  let M := SphericalManifold.mk 2 c per in
  (p <- SphericalManifold.push_forward M [rho; theta] ;;
   SphericalManifold.pull_back M p) = Value [rho; theta]
  <-> 0 <= theta < 2 * PI.
Proof.
  intros Hc Hrho M. split.
  - unfold M. rewrite pull_back_push_forward_2d_closed by assumption.
    intros E. injection E as Et.
    rewrite <- Et. apply add_period_range, atan2_range.
  - intros Ht. apply pull_back_push_forward_2d; assumption.
Qed.

(** In 3-D, the two chart points of the polar axis (polar angle 0 or PI)
    with azimuthal angle 0 are recovered exactly as well. *)
Lemma pull_back_push_forward_3d_axis (c per : Point) (rho theta : R) :
  length c = 3%nat -> 1e-10 < rho -> theta = 0 \/ theta = PI ->
  let M := SphericalManifold.mk 3 c per in
  (p <- SphericalManifold.push_forward M [rho; theta; 0] ;;
   SphericalManifold.pull_back M p) = Value [rho; theta; 0].
Proof.
  intros Hc Hrho Ht M. pose proof PI_RGT_0 as HPI.
  assert (Hs : sin theta = 0).
  { destruct Ht as [-> | ->]; [apply sin_0 | apply sin_PI]. }
  unfold M. rewrite pull_back_push_forward_3d_closed by assumption.
  rewrite sqrt_polar_xy by (rewrite Hs; lra).
  rewrite atan2_polar by (destruct Ht; lra).
  rewrite azimuth_on_axis by exact Hs.
  reflexivity.
Qed.

(** In 3-D, a chart point that is recovered has its polar angle in [0, PI]
    and its azimuthal angle in [0, 2 PI). *)
Lemma pull_back_push_forward_3d_range (c per : Point) (rho theta phi : R) :
  length c = 3%nat -> 1e-10 < rho ->
  let M := SphericalManifold.mk 3 c per in
  (p <- SphericalManifold.push_forward M [rho; theta; phi] ;;
   SphericalManifold.pull_back M p) = Value [rho; theta; phi] ->
  0 <= theta <= PI /\ 0 <= phi < 2 * PI.
Proof.
  intros Hc Hrho M. unfold M.
  rewrite pull_back_push_forward_3d_closed by assumption.
  intros E. injection E as Et Ep. split.
  - rewrite <- Et. apply atan2_nonneg_y, sqrt_pos.
  - rewrite <- Ep. apply add_period_range, atan2_range.
Qed.



Lemma unit_pole_round_trip :
  (p <- SphericalManifold.push_forward unit_sphere [1; 0; 1] ;;
   SphericalManifold.pull_back unit_sphere p) = Value [1; 0; 0].
Proof.
  unfold unit_sphere.
  rewrite push_forward_3d by (unfold coord; simpl; lra).
  unfold bind. rewrite pull_back_3d.
  rewrite psub_padd by reflexivity.
  unfold coord; simpl nth. rewrite sin_0, cos_0.
  replace (1 * 0 * cos 1) with 0 by ring.
  replace (1 * 0 * sin 1) with 0 by ring.
  replace (1 * 1) with 1 by ring.
  replace (0 * 0 + 0 * 0) with 0 by ring.
  rewrite sqrt_0, atan2_origin, add_period_nonneg by lra.
  rewrite atan2_pos_x by lra.
  replace (0 / 1) with 0 by lra. rewrite atan_0.
  unfold norm; simpl.
  replace (0 * 0 + (0 * 0 + (1 * 1 + 0))) with 1 by ring.
  rewrite sqrt_1. reflexivity.
Qed.

Lemma negative_angle_round_trip :
  (p <- SphericalManifold.push_forward (SphericalManifold.mk 2 [0; 0] [])
          [1; - (PI / 2)] ;;
   SphericalManifold.pull_back (SphericalManifold.mk 2 [0; 0] []) p)
  = Value [1; - (PI / 2) + 2 * PI].
Proof.
  pose proof PI_RGT_0 as HPI.
  rewrite push_forward_2d by (unfold coord; simpl; lra).
  unfold bind. rewrite pull_back_2d.
  rewrite psub_padd by reflexivity.
  unfold coord; simpl nth. rewrite sin_neg, cos_neg, sin_PI2, cos_PI2.
  replace (1 * 0) with 0 by ring.
  replace (1 * Ropp 1) with (Ropp 1) by ring.
  rewrite atan2_zero_x_neg_y by lra.
  unfold add_period_if_negative.
  destruct (Rlt_dec (- (PI / 2)) 0) as [_ | Hn]; [ | lra].
  unfold norm; simpl.
  replace (0 * 0 + (Ropp 1 * Ropp 1 + 0)) with 1 by ring.
  rewrite sqrt_1. reflexivity.
Qed.


(** ** The periodicity vector *)

Lemma coord_origin (n i : nat) : coord (origin n) i = 0.
Proof.
  unfold coord, origin. revert i; induction n as [|n IH]; intros [|i]; simpl; auto.
Qed.

Lemma coord_set_coord_same (p : Point) (i : nat) (v : R) :
  (i < length p)%nat -> coord (set_coord p i v) i = v.
Proof.
  unfold coord. revert i; induction p as [|a p IH]; intros [|i] H; simpl in *;
    try lia; auto.
  apply IH; lia.
Qed.

Lemma coord_set_coord_other (p : Point) (i j : nat) (v : R) :
  i <> j -> coord (set_coord p i v) j = coord p j.
Proof.
  unfold coord. revert i j; induction p as [|a p IH]; intros [|i] [|j] H; simpl;
    try congruence; auto.
Qed.

(** C6, as the code has it.  The periodicity vector of a constructed
    SphericalManifold is the one [get_periodicity] returns: it has one entry
    per ambient coordinate, the entry of the last coordinate (theta in 2-D,
    phi in 3-D) is 2 PI, which is not zero, and every other entry is 0; in
    particular the polar angle theta of the 3-D chart is not marked
    periodic. *)
Theorem periodicity_of_last_coordinate :
  forall (spacedim : nat) (center : Point) (M : SphericalManifold.t),
    (0 < spacedim)%nat ->
    SphericalManifold.make spacedim center = Value M ->
    SphericalManifold.periodicity M = SphericalManifold.get_periodicity spacedim /\
    length (SphericalManifold.periodicity M) = spacedim /\
    coord (SphericalManifold.periodicity M) (spacedim - 1) = 2 * PI /\
    2 * PI <> 0 /\
    (forall i : nat, i <> (spacedim - 1)%nat ->
                     coord (SphericalManifold.periodicity M) i = 0).
Proof.
  intros spacedim center M Hpos H.
  unfold SphericalManifold.make in H.
  destruct (Nat.eqb_spec spacedim 1) as [E | Hne]; simpl in H;
    [discriminate | ].
  injection H as <-. cbn [SphericalManifold.periodicity].
  unfold SphericalManifold.get_periodicity.
  split; [reflexivity | ].
  split; [rewrite length_set_coord; apply length_origin | ].
  split.
  - apply coord_set_coord_same. rewrite length_origin; lia.
  - split; [pose proof PI_RGT_0; lra | ].
    intros i Hi. rewrite coord_set_coord_other by congruence.
    apply coord_origin.
Qed.

Lemma periodicity_of_last_coordinate_witness :
  exists M : SphericalManifold.t,
    SphericalManifold.make 3 [0; 0; 0] = Value M /\
    coord (SphericalManifold.periodicity M) 2 = 2 * PI /\
    coord (SphericalManifold.periodicity M) 1 = 0.
Proof.
  exists unit_sphere.
  destruct (periodicity_of_last_coordinate 3 [0; 0; 0] unit_sphere)
    as (_ & _ & H2 & _ & H0).
  - lia.
  - reflexivity.
  - split; [reflexivity | ].
    split; [exact H2 | apply H0; simpl; lia].
Defined.

(** C6 as stated fails in ambient dimension 3: the chart has the two
    angular coordinates theta (index 1) and phi (index 2), and only the
    entry of phi is non-zero. *)
Lemma periodicity_counterexample :
  exists M : SphericalManifold.t,
    SphericalManifold.make 3 [0; 0; 0] = Value M /\
    SphericalManifold.periodicity M = [0; 0; 2 * PI] /\
    coord (SphericalManifold.periodicity M) 1 = 0.
Proof.
  exists unit_sphere. repeat split.
Qed.

(* ------------------------------------------------------------------ *)
(** ** GridGenerator: rejection of invalid parameters *)

Lemma find_zero_repetition (repetitions : list nat) :
  In 0%nat repetitions ->
  find (fun r => (r <? 1)%nat) repetitions = Some 0%nat.
Proof.
  induction repetitions as [|r rs IH]; simpl; [tauto | ].
  intros [-> | H]; [reflexivity | ].
  destruct (Nat.ltb_spec r 1) as [Hr | Hr]; [f_equal; lia | apply IH, H].
Qed.

(** C8.  The catalog routines reject invalid parameters and leave the mesh
    as it was: [subdivided_hyper_rectangle] with an entry 0 among the
    repetitions fails with an exception of kind InvalidArgument, which is
    [ExcInvalidRepetitions] when the vector has [dim] entries; [hyper_shell]
    outside 1-D with inner_radius >= outer_radius fails with
    [ExcInvalidRadii]; and in 1-D [hyper_L], [hyper_ball], [hyper_shell] and
    [hyper_cube_slit] fail with [ExcImpossibleInDim], of kind
    UnsupportedDimension, whatever their other arguments are. *)
Theorem invalid_parameters_rejected :
  (forall (dim : nat) (tria : GridGenerator.Triangulation)
          (repetitions : list nat) (p1 p2 : Point) (colorize : bool)
          (epsilon : R),
      In 0%nat repetitions ->
      (exists e : Exception,
          GridGenerator.subdivided_hyper_rectangle
            dim tria repetitions p1 p2 colorize epsilon = (Throws e, tria) /\
          GridGenerator.error_kind e = GridGenerator.InvalidArgument) /\
      (length repetitions = dim ->
       GridGenerator.subdivided_hyper_rectangle
         dim tria repetitions p1 p2 colorize epsilon
       = (Throws (ExcInvalidRepetitions 0), tria))) /\
  (forall (coarse_mesh : nat -> GridGenerator.Shape -> GridGenerator.Triangulation)
          (dim : nat) (tria : GridGenerator.Triangulation) (center : Point)
          (inner_radius outer_radius : R) (n_cells : nat),
      dim <> 1%nat -> outer_radius <= inner_radius ->
      GridGenerator.hyper_shell coarse_mesh dim tria center
        inner_radius outer_radius n_cells = (Throws ExcInvalidRadii, tria)) /\
  (forall (coarse_mesh : nat -> GridGenerator.Shape -> GridGenerator.Triangulation)
          (tria : GridGenerator.Triangulation) (left right : R)
          (center : Point) (radius inner_radius outer_radius : R)
          (n_cells : nat) (colorize : bool),
      GridGenerator.hyper_L coarse_mesh 1 tria left right
      = (Throws (ExcImpossibleInDim 1), tria) /\
      GridGenerator.hyper_ball coarse_mesh 1 tria center radius
      = (Throws (ExcImpossibleInDim 1), tria) /\
      GridGenerator.hyper_shell coarse_mesh 1 tria center
        inner_radius outer_radius n_cells
      = (Throws (ExcImpossibleInDim 1), tria) /\
      GridGenerator.hyper_cube_slit coarse_mesh 1 tria left right colorize
      = (Throws (ExcImpossibleInDim 1), tria) /\
      GridGenerator.error_kind (ExcImpossibleInDim 1)
      = GridGenerator.UnsupportedDimension).
Proof.
  split; [ | split].
  - intros dim tria repetitions p1 p2 colorize epsilon Hin.
    unfold GridGenerator.subdivided_hyper_rectangle.
    rewrite (find_zero_repetition repetitions Hin).
    split.
    + destruct (negb (length repetitions =? dim)%nat);
        eexists; split; reflexivity.
    + intros Hlen. rewrite Hlen, Nat.eqb_refl. reflexivity.
  - intros coarse_mesh dim tria center ri ro n_cells Hdim Hr.
    unfold GridGenerator.hyper_shell.
    assert (E : Rltb ri ro = false) by (apply Rltb_false; exact Hr).
    rewrite E, andb_false_r. simpl.
    destruct dim as [|[|d]]; [reflexivity | contradiction | reflexivity].
  - intros. repeat split.
Qed.

Lemma invalid_parameters_rejected_witness :
  GridGenerator.subdivided_hyper_rectangle 2 GridGenerator.void_triangulation
    [2%nat; 0%nat] [0; 0] [1; 1] true (1 / 4)
  = (Throws (ExcInvalidRepetitions 0), GridGenerator.void_triangulation) /\
  GridGenerator.hyper_shell (fun _ _ => GridGenerator.void_triangulation)
    2 GridGenerator.void_triangulation [0; 0] 2 1 0
  = (Throws ExcInvalidRadii, GridGenerator.void_triangulation).
Proof.
  destruct invalid_parameters_rejected as (Hrep & Hshell & _).
  split.
  - apply Hrep; [simpl; tauto | reflexivity].
  - apply Hshell; [lia | lra].
Defined.

(* ------------------------------------------------------------------ *)
(** ** GridGenerator: the Laplace smoother *)

Section Smoother.

Variable SparseMatrix : Type.
Variable create_laplace_matrix : GridGenerator.Triangulation -> SparseMatrix.
Variable laplace_solve : SparseMatrix -> list (nat * R) -> list R.

(** The contract of the solve: the solution takes the Dirichlet value at
    every constrained index. *)
Hypothesis laplace_solve_dirichlet :
  forall (tria : GridGenerator.Triangulation) (m : list (nat * R))
         (i : nat) (v : R),
    (i < length (GridGenerator.vertices tria))%nat ->
    GridGenerator.lookup i m = Some v ->
    nth i (laplace_solve (create_laplace_matrix tria) m) 0 = v.

Lemma lookup_component (new_points : list (nat * Point)) (i d : nat) (p : Point) :
  GridGenerator.lookup i new_points = Some p ->
  GridGenerator.lookup i (map (fun ip => (fst ip, coord (snd ip) d)) new_points)
  = Some (coord p d).
Proof.
  induction new_points as [|[j q] m IH]; simpl; [discriminate | ].
  destruct (i =? j)%nat; [intros E; injection E as ->; reflexivity | exact IH].
Qed.

Lemma lookup_in_range (tria : GridGenerator.Triangulation)
    (new_points : list (nat * Point)) (i : nat) (p : Point) :
  find (fun ip => negb (fst ip <? length (GridGenerator.vertices tria))%nat)
       new_points = None ->
  GridGenerator.lookup i new_points = Some p ->
  (i < length (GridGenerator.vertices tria))%nat.
Proof.
  induction new_points as [|[j q] m IH]; simpl; [discriminate | ].
  destruct (Nat.ltb_spec j (length (GridGenerator.vertices tria))) as [Hj | Hj];
    simpl; [ | discriminate].
  intros Hfind. destruct (Nat.eqb_spec i j) as [-> | Hne]; auto.
Qed.

Lemma components_of_point (p : Point) :
  map (coord p) (seq 0 (length p)) = p.
Proof.
  induction p as [|a p IH]; [reflexivity | ].
  cbn [length seq map]. f_equal. rewrite <- seq_shift, map_map. exact IH.
Qed.

Lemma moved_vertex (tria : GridGenerator.Triangulation) (dim : nat)
    (new_points : list (nat * Point)) (tria' : GridGenerator.Triangulation)
    (i : nat) (p : Point) :
  GridGenerator.laplace_transformation SparseMatrix create_laplace_matrix
    laplace_solve dim tria new_points = (Value tt, tria') ->
  GridGenerator.lookup i new_points = Some p ->
  length p = dim ->
  nth i (GridGenerator.vertices tria') [] = p.
Proof.
  intros Hcall Hi Hp.
  unfold GridGenerator.laplace_transformation in Hcall.
  assert (Hbody :
    match find (fun ip => negb (fst ip <? length (GridGenerator.vertices tria))%nat)
               new_points with
    | Some ip => (Throws (ExcInvalidVertexIndex (fst ip)), tria)
    | None =>
        (Value tt,
         GridGenerator.mkTria
           (map (fun i => map (fun u => nth i u 0)
                   (map (fun d => laplace_solve (create_laplace_matrix tria)
                           (map (fun ip => (fst ip, coord (snd ip) d)) new_points))
                        (seq 0 dim)))
                (seq 0 (length (GridGenerator.vertices tria))))
           (GridGenerator.cells tria) (GridGenerator.boundary_faces tria))
    end = (Value tt, tria')).
  { destruct dim as [|[|d]]; [exact Hcall | discriminate | exact Hcall]. }
  clear Hcall.
  destruct (find _ new_points) eqn:Hfind; [discriminate | ].
  injection Hbody as <-. cbn [GridGenerator.vertices].
  pose proof (lookup_in_range tria new_points i p Hfind Hi) as Hrange.
  set (row := fun i0 : nat => _).
  rewrite (nth_indep _ [] (row 0%nat)) by (rewrite length_map, length_seq; exact Hrange).
  rewrite map_nth, seq_nth by exact Hrange.
  unfold row; cbn [Nat.add]. rewrite map_map.
  transitivity (map (coord p) (seq 0 (length p)));
    [ | apply components_of_point].
  rewrite Hp. apply map_ext. intros d.
  apply laplace_solve_dirichlet; [exact Hrange | ].
  apply lookup_component, Hi.
Qed.

End Smoother.

(** C7.  [laplace_transformation] either fails and leaves the mesh as it
    was, or succeeds, which it does outside 1-D when every index of the
    constraint map is an existing vertex.  After a successful call the cells
    with their material ids and the boundary faces with their boundary ids
    are those of the mesh before the call, the number of vertices is
    unchanged, and every vertex whose index is in the constraint map sits at
    its target, given that each solve honours its Dirichlet data. *)
Theorem laplace_transformation_frame :
  forall (SparseMatrix : Type)
         (create_laplace_matrix : GridGenerator.Triangulation -> SparseMatrix)
         (laplace_solve : SparseMatrix -> list (nat * R) -> list R),
    (forall (tria : GridGenerator.Triangulation) (m : list (nat * R))
            (i : nat) (v : R),
        (i < length (GridGenerator.vertices tria))%nat ->
        GridGenerator.lookup i m = Some v ->
        nth i (laplace_solve (create_laplace_matrix tria) m) 0 = v) ->
    forall (dim : nat) (tria : GridGenerator.Triangulation)
           (new_points : list (nat * Point)),
      let result :=
        GridGenerator.laplace_transformation SparseMatrix create_laplace_matrix
          laplace_solve dim tria new_points in
      (fst result <> Value tt -> snd result = tria) /\
      (dim <> 1%nat ->
       Forall (fun ip => (fst ip < length (GridGenerator.vertices tria))%nat)
              new_points ->
       fst result = Value tt) /\
      (fst result = Value tt ->
       GridGenerator.cells (snd result) = GridGenerator.cells tria /\
       GridGenerator.boundary_faces (snd result)
       = GridGenerator.boundary_faces tria /\
       length (GridGenerator.vertices (snd result))
       = length (GridGenerator.vertices tria) /\
       forall (i : nat) (p : Point),
         GridGenerator.lookup i new_points = Some p -> length p = dim ->
         nth i (GridGenerator.vertices (snd result)) [] = p).
Proof.
  intros SparseMatrix create_laplace_matrix laplace_solve Hsolve
         dim tria new_points result.
  assert (Hcases :
    (dim = 1%nat /\ result = (Throws ExcNotImplemented, tria)) \/
    (dim <> 1%nat /\
     exists ip, find (fun ip => negb (fst ip <? length (GridGenerator.vertices tria))%nat)
                     new_points = Some ip /\
                result = (Throws (ExcInvalidVertexIndex (fst ip)), tria)) \/
    (dim <> 1%nat /\
     find (fun ip => negb (fst ip <? length (GridGenerator.vertices tria))%nat)
          new_points = None /\
     exists moved,
       length moved = length (GridGenerator.vertices tria) /\
       result = (Value tt,
                 GridGenerator.mkTria moved (GridGenerator.cells tria)
                   (GridGenerator.boundary_faces tria)))).
  { unfold result, GridGenerator.laplace_transformation.
    destruct (Nat.eq_dec dim 1) as [-> | Hne]; [left; split; reflexivity | ].
    right.
    destruct (find _ new_points) as [ip | ] eqn:Hfind.
    - left. split; [exact Hne | ]. exists ip. split; [reflexivity | ].
      destruct dim as [|[|d]]; [reflexivity | contradiction | reflexivity].
    - right. split; [exact Hne | ]. split; [reflexivity | ].
      eexists. split.
      2:{ destruct dim as [|[|d]]; [reflexivity | contradiction | reflexivity]. }
      rewrite length_map, length_seq. reflexivity. }
  split; [ | split].
  - intros Hfail.
    destruct Hcases as [[_ ->] | [(_ & ip & _ & ->) | (_ & _ & moved & _ & E)]];
      [reflexivity | reflexivity | ].
    rewrite E in Hfail. contradiction Hfail. reflexivity.
  - intros Hdim Hall.
    destruct Hcases as [[E _] | [(_ & ip & Hfind & _) | (_ & _ & moved & _ & ->)]];
      [contradiction | | reflexivity].
    apply find_some in Hfind. destruct Hfind as [Hin Hbad].
    rewrite Forall_forall in Hall. specialize (Hall ip Hin).
    apply Nat.ltb_lt in Hall. rewrite Hall in Hbad. discriminate.
  - intros Hok.
    destruct Hcases as [[_ E] | [(_ & ip & _ & E) | (_ & _ & moved & Hlen & E)]];
      try (rewrite E in Hok; discriminate).
    rewrite E. cbn [snd GridGenerator.cells GridGenerator.boundary_faces
                    GridGenerator.vertices].
    split; [reflexivity | split; [reflexivity | split; [exact Hlen | ]]].
    intros i p Hi Hp.
    pose proof (moved_vertex SparseMatrix create_laplace_matrix laplace_solve
                  Hsolve tria dim new_points
                  (GridGenerator.mkTria moved (GridGenerator.cells tria)
                     (GridGenerator.boundary_faces tria)) i p E Hi Hp) as Hv.
    exact Hv.
Qed.

Lemma dirichlet_solve_contract :
  forall (tria : GridGenerator.Triangulation) (m : list (nat * R))
         (i : nat) (v : R),
    (i < length (GridGenerator.vertices tria))%nat ->
    GridGenerator.lookup i m = Some v ->
    nth i (dirichlet_solve (vertex_count tria) m) 0 = v.
Proof.
  intros tria m i v Hi Hv. unfold dirichlet_solve, vertex_count.
  set (g := fun i0 : nat => _).
  rewrite (nth_indep _ 0 (g 0%nat)) by (rewrite length_map, length_seq; exact Hi).
  rewrite map_nth, seq_nth by exact Hi.
  unfold g; cbn [Nat.add]. rewrite Hv. reflexivity.
Qed.

Lemma laplace_transformation_frame_witness :
  let result :=
    GridGenerator.laplace_transformation nat vertex_count dirichlet_solve
      2 unit_square [(1%nat, [2; 0])] in
  fst result = Value tt /\
  GridGenerator.cells (snd result) = GridGenerator.cells unit_square /\
  nth 1 (GridGenerator.vertices (snd result)) [] = [2; 0].
Proof.
  intros result.
  destruct (laplace_transformation_frame nat vertex_count dirichlet_solve
              dirichlet_solve_contract 2 unit_square [(1%nat, [2; 0])])
    as (_ & Hok & Hpost).
  assert (Hv : fst result = Value tt).
  { apply Hok; [lia | ]. repeat constructor. }
  destruct (Hpost Hv) as (Hcells & _ & _ & Hmoved).
  split; [exact Hv | split; [exact Hcells | ]].
  apply Hmoved; reflexivity.
Defined.

(* ------------------------------------------------------------------ *)
(** ** GridGenerator: colorized rectangles *)

(** ** Tensor-product grids: indices and positions *)

Lemma length_flat_map_block {A B : Type} (f : A -> list B) (L : nat) (l : list A) :
  (forall x, length (f x) = L) -> length (flat_map f l) = (L * length l)%nat.
Proof.
  intros Hf; induction l as [|x l IH]; simpl; [lia | ].
  rewrite length_app, Hf, IH. lia.
Qed.

Lemma nth_flat_map_block {A B : Type} (f : A -> list B) (L : nat) (l : list A)
    (i j : nat) (d : B) (dA : A) :
  (forall x, length (f x) = L) -> (i < L)%nat -> (j < length l)%nat ->
  nth (i + L * j) (flat_map f l) d = nth i (f (nth j l dA)) d.
Proof.
  intros Hf Hi. revert j; induction l as [|x l IH]; intros j Hj; simpl in Hj;
    [lia | ].
  cbn [flat_map]. destruct j as [|j].
  - rewrite Nat.mul_0_r, Nat.add_0_r, app_nth1 by (rewrite Hf; exact Hi).
    reflexivity.
  - rewrite app_nth2 by (rewrite Hf; lia). rewrite Hf.
    replace (i + L * S j - L)%nat with (i + L * j)%nat by lia.
    cbn [nth]. apply IH; lia.
Qed.

Lemma length_grid_row (a : GridGenerator.Axis) (q : Point) :
  length (map (fun i => GridGenerator.axis_coord a i :: q)
              (seq 0 (S (GridGenerator.reps a)))) = S (GridGenerator.reps a).
Proof. rewrite length_map, length_seq; reflexivity. Qed.

Lemma linear_index_lt (axes : list GridGenerator.Axis) (idx : list nat) :
  vertex_index axes idx ->
  (GridGenerator.linear_index axes idx
   < length (GridGenerator.grid_points axes))%nat.
Proof.
  intros H; induction H as [|a i axes idx Hi Hrest IH]; [simpl; lia | ].
  cbn [GridGenerator.linear_index GridGenerator.grid_points].
  rewrite (length_flat_map_block _ (S (GridGenerator.reps a)))
    by (intros q; apply length_grid_row).
  unfold Point in *.
  match goal with
  | |- (_ + ?n * ?L < ?n * ?len)%nat =>
      assert (n * (L + 1) <= n * len)%nat by (apply Nat.mul_le_mono_l; lia)
  end.
  lia.
Qed.

(** The vertex stored at the linear index of a grid index is its grid
    point. *)
Lemma nth_grid_points (axes : list GridGenerator.Axis) (idx : list nat) :
  vertex_index axes idx ->
  nth (GridGenerator.linear_index axes idx) (GridGenerator.grid_points axes) []
  = grid_point axes idx.
Proof.
  intros H; induction H as [|a i axes idx Hi Hrest IH]; [reflexivity | ].
  cbn [GridGenerator.linear_index GridGenerator.grid_points grid_point].
  rewrite (nth_flat_map_block _ (S (GridGenerator.reps a)) _ _ _ _ [])
    by (try (intros q; apply length_grid_row); try lia;
        apply linear_index_lt; exact Hrest).
  set (g := fun i0 : nat => GridGenerator.axis_coord a i0 :: _).
  rewrite (nth_indep _ [] (g 0%nat)) by (rewrite length_map, length_seq; lia).
  rewrite map_nth, seq_nth by lia.
  unfold g; cbn [Nat.add]. f_equal. exact IH.
Qed.

Lemma coord_grid_point (axes : list GridGenerator.Axis) (idx : list nat)
    (k : nat) (d : GridGenerator.Axis) :
  vertex_index axes idx -> (k < length axes)%nat ->
  coord (grid_point axes idx) k
  = GridGenerator.axis_coord (nth k axes d) (nth k idx 0%nat).
Proof.
  intros H; revert k; induction H as [|a i axes idx Hi Hrest IH]; intros k Hk;
    simpl in Hk; [lia | ].
  destruct k as [|k]; [reflexivity | ].
  cbn [grid_point nth]. unfold coord in *. cbn [nth]. apply IH; lia.
Qed.

Lemma in_cell_indices (axes : list GridGenerator.Axis) (c : list nat) :
  In c (GridGenerator.cell_indices axes) <-> cell_index axes c.
Proof.
  revert c; induction axes as [|a axes IH]; intros c; simpl.
  - split.
    + intros [<- | []]; constructor.
    + intros H; inversion H; auto.
  - rewrite in_flat_map. split.
    + intros (c' & Hc' & Hin). apply in_map_iff in Hin.
      destruct Hin as (i & <- & Hi). apply in_seq in Hi.
      constructor; [lia | apply IH; exact Hc'].
    + intros H; inversion H as [|? i ? c' Hi Hrest]; subst.
      exists c'. split; [apply IH; exact Hrest | ].
      apply in_map_iff. exists i. split; [reflexivity | apply in_seq; lia].
Qed.

Lemma in_corners (dim : nat) (b : list nat) :
  In b (GridGenerator.corners dim)
  <-> length b = dim /\ Forall (fun x => (x <= 1)%nat) b.
Proof.
  revert b; induction dim as [|d IH]; intros b; simpl.
  - split.
    + intros [<- | []]; split; [reflexivity | constructor].
    + intros [H _]; destruct b; [auto | discriminate].
  - rewrite in_flat_map. split.
    + intros (b' & Hb' & Hin). apply IH in Hb'. destruct Hb' as [Hlen Hall].
      destruct Hin as [<- | [<- | []]]; simpl; (split; [lia | constructor; [lia | exact Hall]]).
    + intros [Hlen Hall]. destruct b as [|x b']; [discriminate | ].
      inversion Hall as [|? ? Hx Hall']; subst.
      exists b'. split; [apply IH; split; [simpl in Hlen; lia | exact Hall'] | ].
      assert (Hx' : x = 0%nat \/ x = 1%nat) by lia.
      destruct Hx' as [-> | ->]; simpl; auto.
Qed.

Lemma shift_vertex_index (axes : list GridGenerator.Axis) (c b : list nat) :
  cell_index axes c -> length b = length axes ->
  Forall (fun x => (x <= 1)%nat) b ->
  vertex_index axes (GridGenerator.shift c b).
Proof.
  intros H; revert b; induction H as [|a i axes c Hi Hrest IH]; intros b Hlen Hall.
  - destruct b; [constructor | discriminate].
  - destruct b as [|x b]; [discriminate | ].
    inversion Hall as [|? ? Hx Hall']; subst.
    cbn [GridGenerator.shift]. constructor; [lia | ].
    apply IH; [simpl in Hlen; lia | exact Hall'].
Qed.

Lemma nth_shift (c b : list nat) (k : nat) :
  length b = length c ->
  nth k (GridGenerator.shift c b) 0%nat = (nth k c 0 + nth k b 0)%nat.
Proof.
  revert b k; induction c as [|i c IH]; intros [|x b] [|k] Hlen;
    try discriminate; try reflexivity.
  cbn [GridGenerator.shift nth]. apply IH. simpl in Hlen; lia.
Qed.

Lemma length_cell_index (axes : list GridGenerator.Axis) (c : list nat) :
  cell_index axes c -> length c = length axes.
Proof. intros H; symmetry; exact (Forall2_length H). Qed.

(** The position, along coordinate [k], of the corner [b] of cell [c]. *)
Lemma corner_position (axes : list GridGenerator.Axis) (c b : list nat)
    (k : nat) (d : GridGenerator.Axis) (tria : GridGenerator.Triangulation) :
  GridGenerator.vertices tria = GridGenerator.grid_points axes ->
  cell_index axes c -> In b (GridGenerator.corners (length axes)) ->
  (k < length axes)%nat ->
  coord (position tria (GridGenerator.linear_index axes (GridGenerator.shift c b))) k
  = GridGenerator.axis_coord (nth k axes d) (nth k c 0 + nth k b 0)%nat.
Proof.
  intros Hv Hc Hb Hk. apply in_corners in Hb. destruct Hb as [Hlen Hall].
  pose proof (shift_vertex_index axes c b Hc Hlen Hall) as Hidx.
  unfold position. rewrite Hv, nth_grid_points by exact Hidx.
  rewrite (coord_grid_point axes _ k d Hidx Hk).
  rewrite nth_shift; [reflexivity | ].
  rewrite Hlen. symmetry. apply length_cell_index; exact Hc.
Qed.

(** ** Faces of a grid *)

Lemma nth_map_seq (f : nat -> nat) (dim j : nat) :
  (j < dim)%nat -> nth j (map f (seq 0 dim)) 0%nat = f j.
Proof.
  intros H.
  rewrite (nth_indep _ 0%nat (f 0%nat)) by (rewrite length_map, length_seq; exact H).
  rewrite map_nth, seq_nth by exact H. reflexivity.
Qed.

Lemma corner_with_in_face (dim k s k' t : nat) :
  (k < dim)%nat -> (s <= 1)%nat -> (t <= 1)%nat ->
  In (corner_with dim k s k' t) (GridGenerator.face_corners dim k s).
Proof.
  intros Hk Hs Ht. unfold GridGenerator.face_corners.
  apply filter_In. split.
  - apply in_corners. unfold corner_with. split.
    + rewrite length_map, length_seq; reflexivity.
    + apply Forall_forall. intros x Hx. apply in_map_iff in Hx.
      destruct Hx as (j & <- & _).
      destruct (j =? k)%nat; [exact Hs | ].
      destruct (j =? k')%nat; [exact Ht | lia].
  - unfold corner_with. rewrite nth_map_seq by exact Hk.
    rewrite Nat.eqb_refl. apply Nat.eqb_refl.
Qed.

Lemma corner_with_other (dim k s k' t : nat) :
  (k' < dim)%nat -> k' <> k -> nth k' (corner_with dim k s k' t) 0%nat = t.
Proof.
  intros Hk Hne. unfold corner_with. rewrite nth_map_seq by exact Hk.
  destruct (Nat.eqb_spec k' k) as [E | _]; [contradiction | ].
  rewrite Nat.eqb_refl. reflexivity.
Qed.

Section GridFaces.

Variable axes : list GridGenerator.Axis.
Variable tria : GridGenerator.Triangulation.
Hypothesis Hvertices :
  GridGenerator.vertices tria = GridGenerator.grid_points axes.

Let dim := length axes.
Let d0 := GridGenerator.mkAxis 0 0 0.

(** Every vertex of face 2 k + s of cell c has, along coordinate k, the
    position of grid line [c_k + s]. *)
Lemma face_vertex_normal (c : list nat) (k s v : nat) :
  cell_index axes c -> (k < dim)%nat ->
  In v (GridGenerator.face_vertices (GridGenerator.grid_face axes c k s)) ->
  coord (position tria v) k
  = GridGenerator.axis_coord (nth k axes d0) (nth k c 0 + s)%nat.
Proof.
  intros Hc Hk Hv. cbn [GridGenerator.grid_face GridGenerator.face_vertices] in Hv.
  apply in_map_iff in Hv. destruct Hv as (b & <- & Hb).
  apply filter_In in Hb. destruct Hb as [Hb Hs].
  apply Nat.eqb_eq in Hs.
  rewrite (corner_position axes c b k d0 tria Hvertices Hc Hb Hk), Hs.
  reflexivity.
Qed.

(** Along any other coordinate k', the face has a vertex on grid line
    [c_k'] and one on grid line [c_k' + 1]. *)
Lemma face_vertex_tangent (c : list nat) (k s k' t : nat) :
  cell_index axes c -> (k < dim)%nat -> (k' < dim)%nat -> k' <> k ->
  (s <= 1)%nat -> (t <= 1)%nat ->
  exists v : nat,
    In v (GridGenerator.face_vertices (GridGenerator.grid_face axes c k s)) /\
    coord (position tria v) k'
    = GridGenerator.axis_coord (nth k' axes d0) (nth k' c 0 + t)%nat.
Proof.
  intros Hc Hk Hk' Hne Hs Ht.
  pose proof (corner_with_in_face dim k s k' t Hk Hs Ht) as Hb.
  exists (GridGenerator.linear_index axes
            (GridGenerator.shift c (corner_with dim k s k' t))).
  split.
  - cbn [GridGenerator.grid_face GridGenerator.face_vertices].
    apply in_map_iff. eexists; split; [reflexivity | exact Hb].
  - apply filter_In in Hb. destruct Hb as [Hb _].
    rewrite (corner_position axes c _ k' d0 tria Hvertices Hc Hb Hk').
    rewrite corner_with_other by assumption. reflexivity.
Qed.

Lemma face_has_vertex (c : list nat) (k s : nat) :
  (k < dim)%nat -> (s <= 1)%nat ->
  exists v : nat,
    In v (GridGenerator.face_vertices (GridGenerator.grid_face axes c k s)).
Proof.
  intros Hk Hs.
  pose proof (corner_with_in_face dim k s k 0 Hk Hs (Nat.le_0_l 1)) as Hb.
  eexists. cbn [GridGenerator.grid_face GridGenerator.face_vertices].
  apply in_map_iff. eexists; split; [reflexivity | exact Hb].
Qed.

(** The boundary faces of the grid are the faces 2 k + s of the cells that
    touch the boundary there. *)
Lemma in_grid_boundary_faces (f : GridGenerator.BoundaryFace) :
  In f (GridGenerator.grid_boundary_faces axes) <->
  exists (c : list nat) (k s : nat),
    cell_index axes c /\ (k < dim)%nat /\ (s <= 1)%nat /\
    GridGenerator.on_boundary axes c k s = true /\
    f = GridGenerator.grid_face axes c k s.
Proof.
  unfold GridGenerator.grid_boundary_faces, GridGenerator.cell_boundary_faces.
  rewrite in_flat_map. split.
  - intros (c & Hc & Hf). apply in_cell_indices in Hc.
    apply in_flat_map in Hf. destruct Hf as (k & Hk & Hf).
    apply in_seq in Hk. apply in_flat_map in Hf. destruct Hf as (s & Hs & Hf).
    exists c, k, s.
    destruct (GridGenerator.on_boundary axes c k s) eqn:Hb; [ | destruct Hf].
    destruct Hf as [<- | []].
    repeat split; try assumption; try (unfold dim; lia).
    destruct Hs as [<- | [<- | []]]; lia.
  - intros (c & k & s & Hc & Hk & Hs & Hb & ->).
    exists c. split; [apply in_cell_indices; exact Hc | ].
    apply in_flat_map. exists k. split; [apply in_seq; unfold dim in Hk; lia | ].
    apply in_flat_map. exists s. split.
    + assert (Hs' : s = 0%nat \/ s = 1%nat) by lia.
      destruct Hs' as [-> | ->]; simpl; auto.
    + rewrite Hb. left; reflexivity.
Qed.

End GridFaces.

(** ** Grid lines of a proper axis *)

Lemma delta_pos (a : GridGenerator.Axis) :
  proper_axis a -> 0 < GridGenerator.delta a.
Proof.
  intros [Hlt Hn]. unfold GridGenerator.delta.
  apply Rdiv_lt_0_compat; [lra | ].
  apply lt_0_INR; lia.
Qed.

Lemma axis_coord_first (a : GridGenerator.Axis) :
  GridGenerator.axis_coord a 0 = GridGenerator.lo a.
Proof. unfold GridGenerator.axis_coord; simpl; ring. Qed.

Lemma axis_coord_last (a : GridGenerator.Axis) :
  proper_axis a ->
  GridGenerator.axis_coord a (GridGenerator.reps a) = GridGenerator.hi a.
Proof.
  intros [Hlt Hn]. unfold GridGenerator.axis_coord, GridGenerator.delta.
  field. apply not_0_INR; lia.
Qed.

Lemma axis_coord_step (a : GridGenerator.Axis) (i : nat) :
  GridGenerator.axis_coord a (S i)
  = GridGenerator.axis_coord a i + GridGenerator.delta a.
Proof. unfold GridGenerator.axis_coord; rewrite S_INR; ring. Qed.

Lemma axis_coord_mono (a : GridGenerator.Axis) (i j : nat) :
  proper_axis a -> (i <= j)%nat ->
  GridGenerator.axis_coord a i <= GridGenerator.axis_coord a j.
Proof.
  intros Ha Hij. pose proof (delta_pos a Ha) as Hd.
  induction Hij as [|j Hij IH]; [lra | ].
  rewrite axis_coord_step; lra.
Qed.

Lemma axis_coord_above (a : GridGenerator.Axis) (i : nat) :
  proper_axis a -> (1 <= i)%nat ->
  GridGenerator.lo a + GridGenerator.delta a <= GridGenerator.axis_coord a i.
Proof.
  intros Ha Hi.
  pose proof (axis_coord_mono a 1 i Ha Hi) as H.
  rewrite axis_coord_step, axis_coord_first in H. exact H.
Qed.

Lemma axis_coord_below (a : GridGenerator.Axis) (i : nat) :
  proper_axis a -> (i < GridGenerator.reps a)%nat ->
  GridGenerator.axis_coord a i <= GridGenerator.hi a - GridGenerator.delta a.
Proof.
  intros Ha Hi.
  pose proof (axis_coord_mono a (S i) (GridGenerator.reps a) Ha Hi) as H.
  rewrite axis_coord_step, axis_coord_last in H by exact Ha. lra.
Qed.

Lemma cell_index_nth (axes : list GridGenerator.Axis) (c : list nat)
    (k : nat) (d : GridGenerator.Axis) :
  cell_index axes c -> (k < length axes)%nat ->
  (nth k c 0 < GridGenerator.reps (nth k axes d))%nat.
Proof.
  intros H; revert k; induction H as [|a i axes c Hi Hrest IH]; intros k Hk;
    simpl in Hk; [lia | ].
  destruct k as [|k]; [exact Hi | ]. cbn [nth]. apply IH; lia.
Qed.

Lemma proper_nth (axes : list GridGenerator.Axis) (k : nat)
    (d : GridGenerator.Axis) :
  Forall proper_axis axes -> (k < length axes)%nat -> proper_axis (nth k axes d).
Proof.
  intros H Hk. rewrite Forall_forall in H. apply H, nth_In, Hk.
Qed.

Lemma cell_index_map (axes : list GridGenerator.Axis)
    (g : GridGenerator.Axis -> nat) :
  Forall proper_axis axes ->
  (forall a, proper_axis a -> (g a < GridGenerator.reps a)%nat) ->
  cell_index axes (map g axes).
Proof.
  intros H Hg. unfold cell_index.
  induction H as [|a l Ha Hl IH]; simpl; constructor; auto.
Qed.

(** ** The colorization convention, geometrically *)

Section Colorization.

Variable axes : list GridGenerator.Axis.
Variable tria : GridGenerator.Triangulation.
Hypothesis Hproper : Forall proper_axis axes.
Hypothesis Hcolorized : colorized axes tria.

Let d0 := GridGenerator.mkAxis 0 0 0.

(** A boundary face all of whose vertices lie at the lower end of
    coordinate k has id 2 k, and one at the upper end has id 2 k + 1. *)
Lemma colorized_face_id (f : GridGenerator.BoundaryFace) (k : nat) :
  In f (GridGenerator.boundary_faces tria) -> (k < length axes)%nat ->
  (face_in_plane tria f k (GridGenerator.lo (nth k axes d0)) ->
   GridGenerator.boundary_id f = (2 * k)%nat) /\
  (face_in_plane tria f k (GridGenerator.hi (nth k axes d0)) ->
   GridGenerator.boundary_id f = (2 * k + 1)%nat).
Proof.
  intros Hf Hk. destruct Hcolorized as (Hv & Hids & _).
  destruct (Hids f Hf) as (c & k0 & s & Hc & Hk0 & Hs & Hb & Hfv & Hid).
  pose proof (proper_nth axes k d0 Hproper Hk) as Hax.
  pose proof (delta_pos _ Hax) as Hd.
  unfold face_in_plane. rewrite Hfv, Hid.
  destruct (Nat.eq_dec k k0) as [<- | Hne].
  - destruct (face_has_vertex axes c k s Hk Hs) as [v Hin].
    pose proof (face_vertex_normal axes tria Hv c k s v Hc Hk Hin) as Hpos.
    fold d0 in Hpos.
    assert (Hs' : s = 0%nat \/ s = 1%nat) by lia.
    destruct Hs' as [-> | ->]; cbn [GridGenerator.on_boundary] in Hb;
      apply Nat.eqb_eq in Hb; fold d0 in Hb.
    + rewrite Hb in Hpos. cbn [Nat.add] in Hpos.
      rewrite axis_coord_first in Hpos.
      split; [intros _; lia | ].
      intros Hplane. specialize (Hplane v Hin). destruct Hax; lra.
    + replace (nth k c 0 + 1)%nat with (S (nth k c 0%nat)) in Hpos by lia.
      rewrite Hb, axis_coord_last in Hpos by exact Hax.
      split; [ | intros _; reflexivity].
      intros Hplane. specialize (Hplane v Hin). destruct Hax; lra.
  - pose proof (cell_index_nth axes c k d0 Hc Hk) as Hck.
    split; intros Hplane.
    + destruct (face_vertex_tangent axes tria Hv c k0 s k 1 Hc Hk0 Hk Hne Hs
                  (Nat.le_refl 1)) as (v & Hin & Hpos).
      fold d0 in Hpos. specialize (Hplane v Hin).
      assert (Hone : (1 <= nth k c 0 + 1)%nat) by lia.
      pose proof (axis_coord_above (nth k axes d0) (nth k c 0 + 1)%nat Hax Hone).
      lra.
    + destruct (face_vertex_tangent axes tria Hv c k0 s k 0 Hc Hk0 Hk Hne Hs
                  (Nat.le_0_l 1)) as (v & Hin & Hpos).
      fold d0 in Hpos. specialize (Hplane v Hin).
      rewrite Nat.add_0_r in Hpos.
      pose proof (axis_coord_below (nth k axes d0) (nth k c 0%nat) Hax Hck). lra.
Qed.

(** Each end of each coordinate carries a boundary face. *)
Lemma colorized_face_exists (k : nat) :
  (k < length axes)%nat ->
  (exists f, In f (GridGenerator.boundary_faces tria) /\
             face_in_plane tria f k (GridGenerator.lo (nth k axes d0))) /\
  (exists f, In f (GridGenerator.boundary_faces tria) /\
             face_in_plane tria f k (GridGenerator.hi (nth k axes d0))).
Proof.
  intros Hk. destruct Hcolorized as (Hv & _ & Hall).
  pose proof (proper_nth axes k d0 Hproper Hk) as Hax.
  split.
  - set (c := map (fun _ : GridGenerator.Axis => 0%nat) axes).
    assert (Hc : cell_index axes c).
    { apply cell_index_map; [exact Hproper | ]. intros a [_ Ha]; lia. }
    assert (Hck : nth k c 0%nat = 0%nat).
    { unfold c. rewrite (map_nth (fun _ => 0%nat) axes d0 k). reflexivity. }
    destruct (Hall (GridGenerator.grid_face axes c k 0)) as (f' & Hin & Hfv).
    { apply in_grid_boundary_faces. exists c, k, 0%nat.
      repeat split; try assumption; try lia.
      cbn [GridGenerator.on_boundary]. rewrite Hck. reflexivity. }
    exists f'. split; [exact Hin | ].
    intros v Hvin. rewrite Hfv in Hvin.
    rewrite (face_vertex_normal axes tria Hv c k 0 v Hc Hk Hvin).
    rewrite Hck. cbn [Nat.add]. apply axis_coord_first.
  - set (c := map (fun a => (GridGenerator.reps a - 1)%nat) axes).
    assert (Hc : cell_index axes c).
    { apply cell_index_map; [exact Hproper | ]. intros a [_ Ha]; lia. }
    assert (Hck : S (nth k c 0%nat) = GridGenerator.reps (nth k axes d0)).
    { assert (E : nth k c 0%nat = (GridGenerator.reps (nth k axes d0) - 1)%nat)
        by exact (map_nth (fun a => (GridGenerator.reps a - 1)%nat) axes d0 k).
      destruct Hax; lia. }
    destruct (Hall (GridGenerator.grid_face axes c k 1)) as (f' & Hin & Hfv).
    { apply in_grid_boundary_faces. exists c, k, 1%nat.
      repeat split; try assumption; try lia.
      cbn [GridGenerator.on_boundary]. rewrite Hck. apply Nat.eqb_refl. }
    exists f'. split; [exact Hin | ].
    intros v Hvin. rewrite Hfv in Hvin.
    rewrite (face_vertex_normal axes tria Hv c k 1 v Hc Hk Hvin).
    replace (nth k c 0 + 1)%nat with (S (nth k c 0%nat)) by lia.
    rewrite Hck. apply axis_coord_last; exact Hax.
Qed.

End Colorization.

(** ** The axes of a box *)

Lemma length_make_axes (p1 p2 : Point) (repetitions : list nat) :
  length p2 = length p1 -> length repetitions = length p1 ->
  length (GridGenerator.make_axes p1 p2 repetitions) = length p1.
Proof.
  revert p2 repetitions; induction p1 as [|a p1 IH]; intros [|b p2] [|r rs];
    simpl; intros H1 H2; try discriminate; auto.
Qed.

Lemma nth_make_axes (p1 p2 : Point) (repetitions : list nat) (k : nat)
    (d : GridGenerator.Axis) :
  length p2 = length p1 -> length repetitions = length p1 ->
  (k < length p1)%nat ->
  nth k (GridGenerator.make_axes p1 p2 repetitions) d
  = GridGenerator.mkAxis (Rmin (coord p1 k) (coord p2 k))
      (Rmax (coord p1 k) (coord p2 k)) (nth k repetitions 0%nat).
Proof.
  revert p2 repetitions k; induction p1 as [|a p1 IH];
    intros [|b p2] [|r rs] k; simpl; intros H1 H2 Hk;
    try discriminate; try lia.
  destruct k as [|k]; [reflexivity | ].
  unfold coord; cbn [nth]. apply IH; lia.
Qed.

Lemma proper_make_axes (p1 p2 : Point) (repetitions : list nat) :
  length p2 = length p1 -> length repetitions = length p1 ->
  (forall k, (k < length p1)%nat -> coord p1 k <> coord p2 k) ->
  Forall (fun r => (1 <= r)%nat) repetitions ->
  Forall proper_axis (GridGenerator.make_axes p1 p2 repetitions).
Proof.
  revert p2 repetitions; induction p1 as [|a p1 IH]; intros [|b p2] [|r rs];
    simpl; intros H1 H2 Hne Hr; try discriminate; constructor.
  - inversion Hr; subst. split; [ | assumption]. cbn.
    specialize (Hne 0%nat (Nat.lt_0_succ _)). unfold coord in Hne; simpl in Hne.
    unfold Rmin, Rmax. destruct (Rle_dec a b); lra.
  - inversion Hr; subst. apply IH; try lia; [ | assumption].
    intros k Hk. apply (Hne (S k)). lia.
Qed.

Lemma unit_reps_make_axes (p1 p2 : Point) (dim : nat) :
  Forall (fun a => GridGenerator.reps a = 1%nat)
         (GridGenerator.make_axes p1 p2 (repeat 1%nat dim)).
Proof.
  revert p2 dim; induction p1 as [|a p1 IH]; intros [|b p2] [|d]; simpl;
    constructor; auto.
Qed.

Lemma repeat_at_least_one (dim : nat) :
  Forall (fun r => (1 <= r)%nat) (repeat 1%nat dim).
Proof. induction dim; simpl; constructor; auto. Qed.

Lemma coord_map_lo (axes : list GridGenerator.Axis) (k : nat) :
  coord (map GridGenerator.lo axes) k
  = GridGenerator.lo (nth k axes (GridGenerator.mkAxis 0 0 0)).
Proof. exact (map_nth GridGenerator.lo axes (GridGenerator.mkAxis 0 0 0) k). Qed.

Lemma coord_map_hi (axes : list GridGenerator.Axis) (k : nat) :
  coord (map GridGenerator.hi axes) k
  = GridGenerator.hi (nth k axes (GridGenerator.mkAxis 0 0 0)).
Proof. exact (map_nth GridGenerator.hi axes (GridGenerator.mkAxis 0 0 0) k). Qed.

(** ** Numbering the faces of a single cell *)

Lemma flat_map_ext_in {A B : Type} (f g : A -> list B) (l : list A) :
  (forall a, In a l -> f a = g a) -> flat_map f l = flat_map g l.
Proof.
  induction l as [|a l IH]; intros H; simpl; [reflexivity | ].
  rewrite (H a (or_introl eq_refl)), IH; [reflexivity | ].
  intros x Hx; apply H; right; exact Hx.
Qed.

Lemma single_cell (axes : list GridGenerator.Axis) :
  Forall (fun a => GridGenerator.reps a = 1%nat) axes ->
  GridGenerator.cell_indices axes = [map (fun _ => 0%nat) axes].
Proof.
  intros H; induction H as [|a axes Ha Hrest IH]; [reflexivity | ].
  cbn [GridGenerator.cell_indices map]. rewrite IH, Ha. reflexivity.
Qed.

Lemma single_cell_on_boundary (axes : list GridGenerator.Axis) (k s : nat) :
  Forall (fun a => GridGenerator.reps a = 1%nat) axes ->
  (k < length axes)%nat ->
  GridGenerator.on_boundary axes (map (fun _ => 0%nat) axes) k s = true.
Proof.
  intros H Hk.
  assert (Hc : nth k (map (fun _ : GridGenerator.Axis => 0%nat) axes) 0%nat = 0%nat)
    by exact (map_nth (fun _ => 0%nat) axes (GridGenerator.mkAxis 0 0 0) k).
  rewrite Forall_forall in H.
  pose proof (H _ (nth_In axes (GridGenerator.mkAxis 0 0 0) Hk)) as Hr.
  unfold GridGenerator.on_boundary. rewrite Hc, Hr.
  destruct s; reflexivity.
Qed.

Lemma single_cell_faces (axes : list GridGenerator.Axis) :
  Forall (fun a => GridGenerator.reps a = 1%nat) axes ->
  GridGenerator.grid_boundary_faces axes
  = flat_map (fun k =>
                [GridGenerator.grid_face axes (map (fun _ => 0%nat) axes) k 0;
                 GridGenerator.grid_face axes (map (fun _ => 0%nat) axes) k 1])
             (seq 0 (length axes)).
Proof.
  intros H. unfold GridGenerator.grid_boundary_faces.
  rewrite (single_cell axes H). cbn [flat_map]. rewrite app_nil_r.
  unfold GridGenerator.cell_boundary_faces.
  apply flat_map_ext_in. intros k Hk. apply in_seq in Hk.
  cbn [flat_map].
  rewrite !(single_cell_on_boundary axes k _ H) by lia. reflexivity.
Qed.

Lemma in_number_pairs (F : nat -> nat -> GridGenerator.BoundaryFace)
    (f : GridGenerator.BoundaryFace) (len k1 : nat) :
  In f (GridGenerator.number_faces (2 * k1)
          (flat_map (fun k => [F k 0%nat; F k 1%nat]) (seq k1 len))) ->
  exists k s : nat,
    (k1 <= k < k1 + len)%nat /\ (s <= 1)%nat /\
    GridGenerator.face_vertices f = GridGenerator.face_vertices (F k s) /\
    GridGenerator.boundary_id f = (2 * k + s)%nat.
Proof.
  revert k1; induction len as [|len IH]; intros k1; [intros [] | ].
  cbn [seq flat_map app GridGenerator.number_faces].
  intros [<- | [<- | Hin]].
  - exists k1, 0%nat. cbn. repeat split; lia.
  - exists k1, 1%nat. cbn. repeat split; lia.
  - replace (S (S (2 * k1))) with (2 * S k1)%nat in Hin by lia.
    destruct (IH (S k1) Hin) as (k & s & Hk & Hs & Hv & Hid).
    exists k, s. repeat split; try assumption; lia.
Qed.

Lemma number_faces_keeps (fs : list GridGenerator.BoundaryFace)
    (f : GridGenerator.BoundaryFace) (first : nat) :
  In f fs ->
  exists f' : GridGenerator.BoundaryFace,
    In f' (GridGenerator.number_faces first fs) /\
    GridGenerator.face_vertices f' = GridGenerator.face_vertices f.
Proof.
  revert first; induction fs as [|g fs IH]; intros first; [intros [] | ].
  intros [-> | Hin].
  - eexists; split; [left; reflexivity | reflexivity].
  - destruct (IH (S first) Hin) as (f' & Hin' & Hv).
    exists f'; split; [right; exact Hin' | exact Hv].
Qed.

(** The single cell built by [hyper_rectangle], once colorized, follows the
    convention. *)
Lemma colorize_hyper_rectangle_colorized (axes : list GridGenerator.Axis)
    (cs : list GridGenerator.CellData) :
  Forall proper_axis axes ->
  Forall (fun a => GridGenerator.reps a = 1%nat) axes ->
  colorized axes
    (GridGenerator.colorize_hyper_rectangle
       (GridGenerator.mkTria (GridGenerator.grid_points axes) cs
          (GridGenerator.grid_boundary_faces axes))).
Proof.
  intros Hproper Hunit. unfold colorized, GridGenerator.colorize_hyper_rectangle.
  cbn [GridGenerator.vertices GridGenerator.boundary_faces GridGenerator.cells].
  split; [reflexivity | split].
  - intros f Hf. rewrite (single_cell_faces axes Hunit) in Hf.
    apply (in_number_pairs _ f (length axes) 0) in Hf.
    destruct Hf as (k & s & Hk & Hs & Hv & Hid).
    exists (map (fun _ => 0%nat) axes), k, s.
    split; [apply cell_index_map; [exact Hproper | intros a [_ Ha]; lia] | ].
    split; [lia | split; [exact Hs | ]].
    split; [apply single_cell_on_boundary; [exact Hunit | lia] | ].
    split; [exact Hv | exact Hid].
  - intros f Hf. apply number_faces_keeps; exact Hf.
Qed.

(** ** The geometric colorizer *)

Lemma face_at_true (tria : GridGenerator.Triangulation)
    (f : GridGenerator.BoundaryFace) (k : nat) (x epsilon : R) :
  0 < epsilon -> face_in_plane tria f k x ->
  GridGenerator.face_at tria f k x epsilon = true.
Proof.
  intros He Hplane. unfold GridGenerator.face_at.
  apply forallb_forall. intros v Hv. apply Rltb_true.
  pose proof (Hplane v Hv) as E. unfold position in E. rewrite E.
  replace (x - x) with 0 by ring. rewrite Rabs_R0. exact He.
Qed.

Lemma face_at_false (tria : GridGenerator.Triangulation)
    (f : GridGenerator.BoundaryFace) (k v : nat) (x epsilon : R) :
  In v (GridGenerator.face_vertices f) ->
  epsilon <= Rabs (coord (position tria v) k - x) ->
  GridGenerator.face_at tria f k x epsilon = false.
Proof.
  intros Hv Hfar. unfold GridGenerator.face_at.
  destruct (forallb _ _) eqn:E; [ | reflexivity].
  rewrite forallb_forall in E. specialize (E v Hv).
  unfold position in Hfar. rewrite Rltb_false in E by exact Hfar.
  discriminate.
Qed.

Lemma delta_le_length (a : GridGenerator.Axis) :
  proper_axis a ->
  GridGenerator.delta a <= GridGenerator.hi a - GridGenerator.lo a.
Proof.
  intros Ha. destruct Ha as [Hlt Hn].
  pose proof (axis_coord_above a (GridGenerator.reps a) (conj Hlt Hn) Hn) as H.
  rewrite axis_coord_last in H by (split; assumption). lra.
Qed.

Section GeometricColorizer.

Variable axes : list GridGenerator.Axis.
Variable tria : GridGenerator.Triangulation.
Variable epsilon : R.
Hypothesis Hvertices :
  GridGenerator.vertices tria = GridGenerator.grid_points axes.
Hypothesis Hproper : Forall proper_axis axes.
Hypothesis Hpos : 0 < epsilon.
Hypothesis Hsmall :
  Forall (fun a => epsilon <= GridGenerator.delta a) axes.

Let d0 := GridGenerator.mkAxis 0 0 0.

Lemma small_nth (k : nat) :
  (k < length axes)%nat -> epsilon <= GridGenerator.delta (nth k axes d0).
Proof.
  intros Hk. rewrite Forall_forall in Hsmall. apply Hsmall, nth_In, Hk.
Qed.

(** The scan over the coordinates stops at the normal direction of the
    face, with the id of that side. *)
Lemma face_color_grid_face (c : list nat) (k s : nat) :
  cell_index axes c -> (k < length axes)%nat -> (s <= 1)%nat ->
  GridGenerator.on_boundary axes c k s = true ->
  forall len k1 : nat,
    (k1 <= k < k1 + len)%nat -> (k1 + len <= length axes)%nat ->
    GridGenerator.face_color tria (map GridGenerator.lo axes)
      (map GridGenerator.hi axes) epsilon
      (GridGenerator.grid_face axes c k s) (seq k1 len)
    = (2 * k + s)%nat.
Proof.
  intros Hc Hk Hs Hb len.
  induction len as [|len IH]; intros k1 Hrange Hlen; [lia | ].
  cbn [seq GridGenerator.face_color].
  rewrite coord_map_lo, coord_map_hi. fold d0.
  assert (Hk1 : (k1 < length axes)%nat) by lia.
  pose proof (proper_nth axes k1 d0 Hproper Hk1) as Hax.
  pose proof (small_nth k1 Hk1) as Heps.
  pose proof (delta_le_length _ Hax) as Hdl.
  destruct (Nat.eq_dec k1 k) as [-> | Hne].
  - destruct (face_has_vertex axes c k s Hk Hs) as [v Hin].
    pose proof (face_vertex_normal axes tria Hvertices c k s) as Hnormal.
    fold d0 in Hnormal.
    assert (Hs' : s = 0%nat \/ s = 1%nat) by lia.
    destruct Hs' as [-> | ->]; cbn [GridGenerator.on_boundary] in Hb;
      apply Nat.eqb_eq in Hb; fold d0 in Hb.
    + rewrite face_at_true; [lia | exact Hpos | ].
      intros w Hw. rewrite (Hnormal w Hc Hk Hw), Hb. apply axis_coord_first.
    + assert (Hhi : face_in_plane tria (GridGenerator.grid_face axes c k 1) k
                      (GridGenerator.hi (nth k axes d0))).
      { intros w Hw. rewrite (Hnormal w Hc Hk Hw).
        replace (nth k c 0 + 1)%nat with (S (nth k c 0%nat)) by lia.
        rewrite Hb. apply axis_coord_last; exact Hax. }
      rewrite (face_at_false tria _ k v); [ | exact Hin | ].
      * rewrite face_at_true; [reflexivity | exact Hpos | exact Hhi].
      * rewrite (Hhi v Hin). rewrite Rabs_right; lra.
  - pose proof (cell_index_nth axes c k1 d0 Hc Hk1) as Hck.
    destruct (face_vertex_tangent axes tria Hvertices c k s k1 1 Hc Hk Hk1 Hne Hs
                (Nat.le_refl 1)) as (v1 & Hin1 & Hpos1).
    destruct (face_vertex_tangent axes tria Hvertices c k s k1 0 Hc Hk Hk1 Hne Hs
                (Nat.le_0_l 1)) as (v0 & Hin0 & Hpos0).
    fold d0 in Hpos0, Hpos1. rewrite Nat.add_0_r in Hpos0.
    assert (Hone : (1 <= nth k1 c 0 + 1)%nat) by lia.
    pose proof (axis_coord_above (nth k1 axes d0) (nth k1 c 0 + 1)%nat Hax Hone)
      as Habove.
    pose proof (axis_coord_below (nth k1 axes d0) (nth k1 c 0%nat) Hax Hck)
      as Hbelow.
    rewrite (face_at_false tria _ k1 v1); [ | exact Hin1 | ].
    + rewrite (face_at_false tria _ k1 v0); [ | exact Hin0 | ].
      * apply IH; lia.
      * rewrite Hpos0. rewrite Rabs_left1; lra.
    + rewrite Hpos1. rewrite Rabs_right; lra.
Qed.

(** The grid built by [subdivided_hyper_rectangle], once colorized, follows
    the convention. *)
Lemma colorize_subdivided_colorized :
  GridGenerator.boundary_faces tria = GridGenerator.grid_boundary_faces axes ->
  colorized axes
    (GridGenerator.colorize_subdivided_hyper_rectangle (length axes) tria
       (map GridGenerator.lo axes) (map GridGenerator.hi axes) epsilon).
Proof.
  intros Hfaces.
  unfold colorized, GridGenerator.colorize_subdivided_hyper_rectangle.
  cbn [GridGenerator.vertices GridGenerator.boundary_faces].
  split; [exact Hvertices | split].
  - intros f Hf. apply in_map_iff in Hf. destruct Hf as (g & <- & Hg).
    rewrite Hfaces in Hg. apply in_grid_boundary_faces in Hg.
    destruct Hg as (c & k & s & Hc & Hk & Hs & Hb & ->).
    exists c, k, s. repeat split; try assumption.
    cbn [GridGenerator.boundary_id].
    apply face_color_grid_face; try assumption; lia.
  - intros f Hf. rewrite Hfaces.
    eexists. split; [apply in_map; exact Hf | reflexivity].
Qed.

End GeometricColorizer.

(** ** The colorized rectangles *)

Lemma colorized_convention (dim : nat) (p1 p2 : Point) (repetitions : list nat)
    (tria : GridGenerator.Triangulation) :
  length p1 = dim -> length p2 = dim -> length repetitions = dim ->
  (forall k, (k < dim)%nat -> coord p1 k <> coord p2 k) ->
  Forall (fun r => (1 <= r)%nat) repetitions ->
  colorized (GridGenerator.make_axes p1 p2 repetitions) tria ->
  colorization_convention dim p1 p2 tria.
Proof.
  intros H1 H2 Hr Hne Hreps Hcol k Hk lower upper.
  set (axes := GridGenerator.make_axes p1 p2 repetitions) in *.
  assert (Hlen : length axes = dim).
  { unfold axes. rewrite length_make_axes; congruence. }
  assert (Hproper : Forall proper_axis axes).
  { apply proper_make_axes; try congruence; rewrite H1; exact Hne. }
  assert (Hnth : nth k axes (GridGenerator.mkAxis 0 0 0)
                 = GridGenerator.mkAxis lower upper (nth k repetitions 0%nat)).
  { apply nth_make_axes; try congruence; rewrite H1; exact Hk. }
  rewrite <- Hlen in Hk.
  pose proof (colorized_face_exists axes tria Hproper Hcol k Hk) as [Hlo Hhi].
  rewrite Hnth in Hlo, Hhi. cbn [GridGenerator.lo GridGenerator.hi] in Hlo, Hhi.
  split; [exact Hlo | split; [exact Hhi | ]].
  intros f Hf.
  pose proof (colorized_face_id axes tria Hproper Hcol f k Hf Hk) as Hid.
  rewrite Hnth in Hid. exact Hid.
Qed.

Lemma no_zero_repetition (repetitions : list nat) :
  Forall (fun r => (1 <= r)%nat) repetitions ->
  find (fun r => (r <? 1)%nat) repetitions = None.
Proof.
  intros H; induction H as [|r rs Hr Hrs IH]; [reflexivity | ].
  cbn [find]. destruct (Nat.ltb_spec r 1); [lia | exact IH].
Qed.

Lemma hyper_rectangle_colorized (dim : nat) (tria : GridGenerator.Triangulation)
    (p1 p2 : Point) :
  GridGenerator.is_void tria = true ->
  length p1 = dim -> length p2 = dim ->
  (forall k, (k < dim)%nat -> coord p1 k <> coord p2 k) ->
  exists tria' : GridGenerator.Triangulation,
    GridGenerator.hyper_rectangle dim tria p1 p2 true = (Value tt, tria') /\
    colorization_convention dim p1 p2 tria'.
Proof.
  intros Hvoid H1 H2 Hne.
  unfold GridGenerator.hyper_rectangle, GridGenerator.create_triangulation.
  rewrite Hvoid. eexists. split; [reflexivity | ].
  apply (colorized_convention dim p1 p2 (repeat 1%nat dim));
    try assumption; try apply repeat_length; try apply repeat_at_least_one.
  apply colorize_hyper_rectangle_colorized; [ | apply unit_reps_make_axes].
  apply proper_make_axes;
    rewrite ?repeat_length; try congruence; try apply repeat_at_least_one;
    rewrite H1; exact Hne.
Qed.

Lemma subdivided_hyper_rectangle_colorized (dim : nat)
    (tria : GridGenerator.Triangulation) (repetitions : list nat)
    (p1 p2 : Point) (epsilon : R) :
  GridGenerator.is_void tria = true ->
  length p1 = dim -> length p2 = dim -> length repetitions = dim ->
  (forall k, (k < dim)%nat -> coord p1 k <> coord p2 k) ->
  Forall (fun r => (1 <= r)%nat) repetitions ->
  0 < epsilon ->
  (forall k, (k < dim)%nat ->
             epsilon <= (Rmax (coord p1 k) (coord p2 k)
                         - Rmin (coord p1 k) (coord p2 k))
                        / INR (nth k repetitions 0%nat)) ->
  exists tria' : GridGenerator.Triangulation,
    GridGenerator.subdivided_hyper_rectangle dim tria repetitions p1 p2 true
      epsilon = (Value tt, tria') /\
    colorization_convention dim p1 p2 tria'.
Proof.
  intros Hvoid H1 H2 Hr Hne Hreps Heps Hsmall.
  unfold GridGenerator.subdivided_hyper_rectangle,
    GridGenerator.create_triangulation.
  rewrite Hr, Nat.eqb_refl, (no_zero_repetition repetitions Hreps), Hvoid.
  cbn [negb]. eexists. split; [reflexivity | ].
  apply (colorized_convention dim p1 p2 repetitions); try assumption.
  set (axes := GridGenerator.make_axes p1 p2 repetitions).
  assert (Hlen : length axes = dim).
  { unfold axes. rewrite length_make_axes; congruence. }
  rewrite <- Hlen at 1.
  apply colorize_subdivided_colorized.
  - reflexivity.
  - apply proper_make_axes; try congruence; rewrite H1; exact Hne.
  - exact Heps.
  - apply Forall_forall. intros a Ha.
    destruct (In_nth axes a (GridGenerator.mkAxis 0 0 0) Ha) as (k & Hk & <-).
    rewrite Hlen in Hk.
    unfold axes. rewrite nth_make_axes by congruence.
    unfold GridGenerator.delta; cbn [GridGenerator.lo GridGenerator.hi
                                       GridGenerator.reps].
    apply Hsmall. exact Hk.
  - reflexivity.
Qed.

Ltac coords_eq :=
  repeat (apply (f_equal2 (@cons R)); [lra | ]); reflexivity.

Lemma unit_square_colorized :
  exists tria' : GridGenerator.Triangulation,
    GridGenerator.hyper_rectangle 2 GridGenerator.void_triangulation
      [0; 0] [1; 1] true = (Value tt, tria') /\
    GridGenerator.vertices tria' = [[0; 0]; [1; 0]; [0; 1]; [1; 1]] /\
    GridGenerator.cells tria' = [GridGenerator.mkCell [0; 1; 2; 3]%nat 0] /\
    GridGenerator.boundary_faces tria'
    = [GridGenerator.mkFace [0; 2]%nat 0; GridGenerator.mkFace [1; 3]%nat 1;
       GridGenerator.mkFace [0; 1]%nat 2; GridGenerator.mkFace [2; 3]%nat 3].
Proof.
  eexists. split; [reflexivity | ].
  split; [ | split; reflexivity].
  assert (Hmin : Rmin 0 1 = 0) by (apply Rmin_left; lra).
  assert (Hmax : Rmax 0 1 = 1) by (apply Rmax_right; lra).
  cbv [GridGenerator.colorize_hyper_rectangle GridGenerator.vertices
       GridGenerator.grid_points GridGenerator.make_axes repeat flat_map map
       seq app GridGenerator.axis_coord GridGenerator.delta GridGenerator.lo
       GridGenerator.hi GridGenerator.reps INR].
  rewrite Hmin, Hmax.
  repeat (apply (f_equal2 (@cons Point)); [coords_eq | ]); reflexivity.
Qed.

(** C9.  Called with colorize = true on a void mesh and two corner points
    that differ in every coordinate, [hyper_rectangle], and
    [subdivided_hyper_rectangle] with at least one cell per direction and a
    tolerance not above the cell size, succeed and leave a mesh in which,
    for k = 0 .. dim - 1, the boundary at the minimum of coordinate k has
    faces, all with boundary id 2 k, and the boundary at the maximum has
    faces, all with id 2 k + 1.  On the unit square the four faces are the
    vertex pairs (0,2), (1,3), (0,1), (2,3) of the vertices (0,0), (1,0),
    (0,1), (1,1), with ids 0 (x = 0), 1 (x = 1), 2 (y = 0), 3 (y = 1). *)
Theorem colorize_boundary_ids :
  (forall (dim : nat) (tria : GridGenerator.Triangulation) (p1 p2 : Point),
      GridGenerator.is_void tria = true ->
      length p1 = dim -> length p2 = dim ->
      (forall k, (k < dim)%nat -> coord p1 k <> coord p2 k) ->
      (exists tria' : GridGenerator.Triangulation,
          GridGenerator.hyper_rectangle dim tria p1 p2 true = (Value tt, tria') /\
          colorization_convention dim p1 p2 tria') /\
      (forall (repetitions : list nat) (epsilon : R),
          length repetitions = dim ->
          Forall (fun r => (1 <= r)%nat) repetitions ->
          0 < epsilon ->
          (forall k, (k < dim)%nat ->
                     epsilon <= (Rmax (coord p1 k) (coord p2 k)
                                 - Rmin (coord p1 k) (coord p2 k))
                                / INR (nth k repetitions 0%nat)) ->
          exists tria' : GridGenerator.Triangulation,
            GridGenerator.subdivided_hyper_rectangle dim tria repetitions
              p1 p2 true epsilon = (Value tt, tria') /\
            colorization_convention dim p1 p2 tria')) /\
  (exists tria' : GridGenerator.Triangulation,
      GridGenerator.hyper_rectangle 2 GridGenerator.void_triangulation
        [0; 0] [1; 1] true = (Value tt, tria') /\
      GridGenerator.vertices tria' = [[0; 0]; [1; 0]; [0; 1]; [1; 1]] /\
      GridGenerator.cells tria' = [GridGenerator.mkCell [0; 1; 2; 3]%nat 0] /\
      GridGenerator.boundary_faces tria'
      = [GridGenerator.mkFace [0; 2]%nat 0; GridGenerator.mkFace [1; 3]%nat 1;
         GridGenerator.mkFace [0; 1]%nat 2; GridGenerator.mkFace [2; 3]%nat 3]).
Proof.
  split; [ | exact unit_square_colorized].
  intros dim tria p1 p2 Hvoid H1 H2 Hne. split.
  - apply hyper_rectangle_colorized; assumption.
  - intros repetitions epsilon Hr Hreps Heps Hsmall.
    apply subdivided_hyper_rectangle_colorized; assumption.
Qed.

Lemma colorize_boundary_ids_witness :
  (exists tria' : GridGenerator.Triangulation,
      GridGenerator.hyper_rectangle 2 GridGenerator.void_triangulation
        [0; 0] [1; 1] true = (Value tt, tria') /\
      colorization_convention 2 [0; 0] [1; 1] tria') /\
  (exists tria' : GridGenerator.Triangulation,
      GridGenerator.subdivided_hyper_rectangle 2 GridGenerator.void_triangulation
        [2%nat; 3%nat] [0; 0] [1; 1] true (1 / 4) = (Value tt, tria') /\
      colorization_convention 2 [0; 0] [1; 1] tria').
Proof.
  destruct colorize_boundary_ids as [H _].
  destruct (H 2%nat GridGenerator.void_triangulation [0; 0] [1; 1])
    as [Hrect Hsub].
  - reflexivity.
  - reflexivity.
  - reflexivity.
  - intros k Hk. destruct k as [|[|k]]; unfold coord; simpl; try lra; lia.
  - split; [exact Hrect | ].
    apply Hsub.
    + reflexivity.
    + repeat constructor.
    + lra.
    + assert (Hmin : Rmin 0 1 = 0) by (apply Rmin_left; lra).
      assert (Hmax : Rmax 0 1 = 1) by (apply Rmax_right; lra).
      intros k Hk. destruct k as [|[|k]]; unfold coord; simpl nth;
        try lia; rewrite Hmin, Hmax; simpl INR; lra.
Defined.

(* ------------------------------------------------------------------ *)
(** ** SphericalManifold: outcomes of the chart maps *)

Lemma push_forward_negative (M : SphericalManifold.t) (sp : Point) :
  coord sp 0 < 0 ->
  SphericalManifold.push_forward M sp
  = Throws (ExcMessage "Negative radius for given point.").
Proof.
  intros H. unfold SphericalManifold.push_forward.
  rewrite (Rleb_false _ _ H). reflexivity.
Qed.

Lemma push_forward_unsupported (M : SphericalManifold.t) (sp : Point) :
  1e-10 < coord sp 0 ->
  SphericalManifold.spacedim M <> 2%nat ->
  SphericalManifold.spacedim M <> 3%nat ->
  SphericalManifold.push_forward M sp = Throws ExcInternalError.
Proof.
  intros H H2 H3. unfold SphericalManifold.push_forward.
  rewrite Rleb_true by lra. rewrite (Rltb_true _ _ H). cbn [Assert bind].
  destruct (SphericalManifold.spacedim M) as [|[|[|[|n]]]];
    try reflexivity; congruence.
Qed.

Lemma push_forward_returns (M : SphericalManifold.t) (sp : Point) :
  0 <= coord sp 0 ->
  coord sp 0 <= 1e-10 \/ SphericalManifold.spacedim M = 2%nat
  \/ SphericalManifold.spacedim M = 3%nat ->
  exists q : Point, SphericalManifold.push_forward M sp = Value q.
Proof.
  intros Hge Hcase. unfold SphericalManifold.push_forward.
  rewrite (Rleb_true _ _ Hge). cbn [Assert bind].
  destruct (Rlt_le_dec 1e-10 (coord sp 0)) as [Hbig | Hsmall].
  - rewrite (Rltb_true _ _ Hbig).
    destruct Hcase as [H | [-> | ->]]; [lra | | ]; eexists; reflexivity.
  - rewrite (Rltb_false _ _ Hsmall). eexists; reflexivity.
Qed.

Ltac outcome_case :=
  intros;
  repeat match goal with
         | H : exists _, _ |- _ => destruct H
         | H : _ /\ _ |- _ => destruct H
         | H : _ \/ _ |- _ => destruct H
         end;
  first [ congruence | lra | contradiction | (eexists; reflexivity)
        | tauto | (split; [lra | tauto]) ].

(** X1.  How [push_forward] ends: it throws the message exception exactly for a
    negative radius, the internal error exactly for a radius above 1e-10 in
    an ambient dimension other than 2 and 3, and returns a point in every
    other case; in particular a radius of at most 1e-10 is accepted in
    every ambient dimension. *)
Theorem push_forward_outcome :
  forall (M : SphericalManifold.t) (spherical_point : Point),
    let rho := coord spherical_point 0 in
    let n := SphericalManifold.spacedim M in
    (SphericalManifold.push_forward M spherical_point
     = Throws (ExcMessage "Negative radius for given point.") <-> rho < 0) /\
    (SphericalManifold.push_forward M spherical_point = Throws ExcInternalError
     <-> 1e-10 < rho /\ n <> 2%nat /\ n <> 3%nat) /\
    ((exists q : Point,
         SphericalManifold.push_forward M spherical_point = Value q)
     <-> 0 <= rho /\ (rho <= 1e-10 \/ n = 2%nat \/ n = 3%nat)) /\
    SphericalManifold.push_forward M spherical_point <> NotFinite.
Proof.
  intros M sp rho n.
  assert (Hcases :
    (rho < 0 /\ SphericalManifold.push_forward M sp
                = Throws (ExcMessage "Negative radius for given point.")) \/
    (1e-10 < rho /\ n <> 2%nat /\ n <> 3%nat /\
     SphericalManifold.push_forward M sp = Throws ExcInternalError) \/
    (0 <= rho /\ (rho <= 1e-10 \/ n = 2%nat \/ n = 3%nat) /\
     exists q, SphericalManifold.push_forward M sp = Value q)).
  { destruct (Rlt_le_dec rho 0) as [Hneg | Hge].
    - left. split; [exact Hneg | apply push_forward_negative; exact Hneg].
    - right. destruct (Rlt_le_dec 1e-10 rho) as [Hbig | Hsmall].
      + destruct (Nat.eq_dec n 2) as [E2 | N2].
        * right. split; [exact Hge | split; [tauto | ]].
          apply push_forward_returns; tauto.
        * destruct (Nat.eq_dec n 3) as [E3 | N3].
          -- right. split; [exact Hge | split; [tauto | ]].
             apply push_forward_returns; tauto.
          -- left. repeat split; try assumption.
             apply push_forward_unsupported; assumption.
      + right. split; [exact Hge | split; [tauto | ]].
        apply push_forward_returns; tauto. }
  destruct Hcases as [(H1 & E) | [(H1 & H2 & H3 & E) | (H1 & H2 & q & E)]];
    rewrite E; (split; [ | split; [ | split]]); try split; outcome_case.
Qed.

(** X2.  How [pull_back] ends: it throws the internal error exactly in an ambient
    dimension other than 2 and 3; otherwise it returns a chart point with
    one coordinate per ambient dimension whose radius is the distance of the
    point from the centre, which [push_forward] accepts. *)
Theorem pull_back_outcome :
  forall (M : SphericalManifold.t) (space_point : Point),
    let n := SphericalManifold.spacedim M in
    (SphericalManifold.pull_back M space_point = Throws ExcInternalError
     <-> n <> 2%nat /\ n <> 3%nat) /\
    (n = 2%nat \/ n = 3%nat ->
     exists p : Point,
       SphericalManifold.pull_back M space_point = Value p /\
       length p = n /\
       coord p 0 = norm (psub space_point (SphericalManifold.center M)) /\
       exists q : Point, SphericalManifold.push_forward M p = Value q).
Proof.
  intros M q n. destruct M as [sd c per]. cbn [SphericalManifold.spacedim] in n.
  split.
  - unfold SphericalManifold.pull_back. cbn [SphericalManifold.spacedim].
    fold n. destruct n as [|[|[|[|n]]]]; split;
      try (intros H; discriminate H); try (intros [H2 H3]; congruence);
      try (intros _; split; lia); try reflexivity.
  - intros Hn.
    assert (Hpush : forall p, 0 <= coord p 0 ->
              exists q', SphericalManifold.push_forward
                           (SphericalManifold.mk sd c per) p = Value q').
    { intros p Hp. apply push_forward_returns; [exact Hp | ].
      cbn [SphericalManifold.spacedim]. fold n. tauto. }
    destruct Hn as [Hn | Hn]; unfold n in Hn; subst sd.
    + rewrite pull_back_2d. eexists. split; [reflexivity | ].
      split; [reflexivity | split; [reflexivity | ]].
      apply Hpush. apply norm_nonneg.
    + rewrite pull_back_3d. eexists. split; [reflexivity | ].
      split; [reflexivity | split; [reflexivity | ]].
      apply Hpush. apply norm_nonneg.
Qed.

Lemma pull_back_outcome_witness :
  exists p : Point,
    SphericalManifold.pull_back unit_sphere [1; 2; 2] = Value p /\
    length p = 3%nat.
Proof.
  destruct (pull_back_outcome unit_sphere [1; 2; 2]) as [_ H].
  destruct H as (p & Hp & Hlen & _).
  - right; reflexivity.
  - exists p. split; [exact Hp | exact Hlen].
Defined.

Lemma push_forward_outcome_witness :
  SphericalManifold.push_forward unit_sphere [-1; 0; 0]
  = Throws (ExcMessage "Negative radius for given point.").
Proof.
  destruct (push_forward_outcome unit_sphere [-1; 0; 0]) as ([_ H] & _).
  apply H. unfold coord; simpl; lra.
Defined.

(* ------------------------------------------------------------------ *)
(** ** SphericalManifold: geometry of the chart maps *)

(** X3.  [push_forward] puts a chart point of radius rho at distance rho from the
    centre when rho is above 1e-10, and at the centre itself otherwise. *)
Theorem push_forward_distance :
  forall (M : SphericalManifold.t) (spherical_point : Point),
    let rho := coord spherical_point 0 in
    let n := SphericalManifold.spacedim M in
    let c := SphericalManifold.center M in
    n = 2%nat \/ n = 3%nat -> length c = n -> 0 <= rho ->
    exists q : Point,
      SphericalManifold.push_forward M spherical_point = Value q /\
      length q = n /\
      norm (psub q c) = (if Rlt_dec 1e-10 rho then rho else 0).
Proof.
  intros M sp rho n c Hn Hc Hrho. destruct M as [sd c0 per].
  cbn [SphericalManifold.spacedim SphericalManifold.center] in *.
  subst n c. destruct (Rlt_dec 1e-10 rho) as [Hbig | Hsmall].
  - destruct Hn as [-> | ->].
    + rewrite push_forward_2d by exact Hbig. eexists. split; [reflexivity | ].
      split; [rewrite length_padd; [reflexivity | exact Hc] | ].
      rewrite psub_padd by exact Hc. apply norm_polar_2d; exact Hrho.
    + rewrite push_forward_3d by exact Hbig. eexists. split; [reflexivity | ].
      split; [rewrite length_padd; [reflexivity | exact Hc] | ].
      rewrite psub_padd by exact Hc. apply norm_polar_3d; exact Hrho.
  - rewrite push_forward_small; [ | exact Hc | split; [exact Hrho | fold rho; lra]].
    eexists. split; [reflexivity | ]. split; [exact Hc | ].
    cbn [SphericalManifold.center]. apply norm_psub_self.
Qed.

Lemma push_forward_distance_witness :
  exists q : Point,
    SphericalManifold.push_forward unit_sphere [2; 1; 1] = Value q /\
    norm (psub q [0; 0; 0]) = 2.
Proof.
  destruct (push_forward_distance unit_sphere [2; 1; 1]) as (q & Hq & _ & Hd).
  - right; reflexivity.
  - reflexivity.
  - unfold coord; simpl; lra.
  - exists q. split; [exact Hq | ].
    cbn [SphericalManifold.center unit_sphere] in Hd. rewrite Hd.
    unfold coord; simpl. destruct (Rlt_dec 1e-10 2); lra.
Defined.

Lemma cos_plus_2PI (a : R) : cos (a + 2 * PI) = cos a.
Proof. rewrite cos_plus, cos_2PI, sin_2PI; ring. Qed.

Lemma sin_plus_2PI (a : R) : sin (a + 2 * PI) = sin a.
Proof. rewrite sin_plus, cos_2PI, sin_2PI; ring. Qed.

Lemma push_forward_ext (M : SphericalManifold.t) (sp sp' : Point) :
  coord sp 0 = coord sp' 0 ->
  cos (coord sp 1) = cos (coord sp' 1) ->
  sin (coord sp 1) = sin (coord sp' 1) ->
  cos (coord sp 2) = cos (coord sp' 2) ->
  sin (coord sp 2) = sin (coord sp' 2) ->
  SphericalManifold.push_forward M sp = SphericalManifold.push_forward M sp'.
Proof.
  intros H0 Hc1 Hs1 Hc2 Hs2. unfold SphericalManifold.push_forward.
  rewrite H0, Hc1, Hs1, Hc2, Hs2. reflexivity.
Qed.

(** X4.  The periodicity vector is a period of [push_forward]: for a manifold
    built by the constructor in ambient dimension 2 or 3, adding the vector
    to a chart point does not change the ambient point. *)
Theorem push_forward_periodic :
  forall (spacedim : nat) (center : Point) (M : SphericalManifold.t)
         (spherical_point : Point),
    SphericalManifold.make spacedim center = Value M ->
    spacedim = 2%nat \/ spacedim = 3%nat ->
    length spherical_point = spacedim ->
    SphericalManifold.push_forward M
      (padd spherical_point (SphericalManifold.periodicity M))
    = SphericalManifold.push_forward M spherical_point.
Proof.
  intros sd c M sp Hmake Hsd Hlen.
  destruct Hsd as [-> | ->]; injection Hmake as <-;
    cbn [SphericalManifold.periodicity].
  - destruct sp as [|rho [|theta [|x sp]]]; try discriminate.
    apply push_forward_ext; unfold coord; cbn;
      rewrite ?Rplus_0_r, ?cos_plus_2PI, ?sin_plus_2PI; reflexivity.
  - destruct sp as [|rho [|theta [|phi [|x sp]]]]; try discriminate.
    apply push_forward_ext; unfold coord; cbn;
      rewrite ?Rplus_0_r, ?cos_plus_2PI, ?sin_plus_2PI; reflexivity.
Qed.

Lemma push_forward_periodic_witness :
  SphericalManifold.push_forward unit_sphere
    (padd [1; 1; 1] (SphericalManifold.periodicity unit_sphere))
  = SphericalManifold.push_forward unit_sphere [1; 1; 1].
Proof.
  apply (push_forward_periodic 3 [0; 0; 0] unit_sphere [1; 1; 1]).
  - reflexivity.
  - right; reflexivity.
  - reflexivity.
Defined.

(** X5.  [pull_back] returns, for the coordinate that the periodicity vector
    marks, a representative within one period: for a manifold built by the
    constructor in ambient dimension 2 or 3, the last chart coordinate of
    any ambient point is at least 0 and at most the last entry of the
    periodicity vector. *)
Theorem pull_back_within_period :
  forall (spacedim : nat) (center : Point) (M : SphericalManifold.t)
         (space_point p : Point),
    SphericalManifold.make spacedim center = Value M ->
    spacedim = 2%nat \/ spacedim = 3%nat ->
    SphericalManifold.pull_back M space_point = Value p ->
    0 <= coord p (spacedim - 1)
      <= coord (SphericalManifold.periodicity M) (spacedim - 1).
Proof.
  intros sd c M q p Hmake Hsd Hp.
  assert (Hrange : forall y x : R,
             0 <= add_period_if_negative (atan2 y x) <= 2 * PI).
  { intros y x. pose proof (add_period_range _ (atan2_range y x)). lra. }
  destruct Hsd as [-> | ->]; injection Hmake as <-;
    cbn [SphericalManifold.periodicity].
  - rewrite pull_back_2d in Hp. injection Hp as <-.
    unfold coord; cbn [Nat.sub nth SphericalManifold.get_periodicity origin
                       repeat set_coord].
    apply Hrange.
  - rewrite pull_back_3d in Hp. injection Hp as <-.
    unfold coord; cbn [Nat.sub nth SphericalManifold.get_periodicity origin
                       repeat set_coord].
    apply Hrange.
Qed.

Lemma pull_back_within_period_witness :
  exists p : Point,
    SphericalManifold.pull_back unit_sphere [1; -1; 0] = Value p /\
    0 <= coord p 2 <= coord (SphericalManifold.periodicity unit_sphere) 2.
Proof.
  eexists. split; [apply pull_back_3d | ].
  apply (pull_back_within_period 3 [0; 0; 0] unit_sphere [1; -1; 0]).
  - reflexivity.
  - right; reflexivity.
  - apply pull_back_3d.
Defined.

(* ------------------------------------------------------------------ *)
(** ** SphericalManifold: moving the centre, and rays from the centre *)

Lemma psub_padd_padd (p q t : Point) :
  length t = length p -> length q = length p ->
  psub (padd p t) (padd q t) = psub p q.
Proof.
  revert q t; induction p as [|a p IH]; intros [|b q] [|x t]; simpl;
    intros H1 H2; try discriminate; auto.
  f_equal; [ring | apply IH; lia].
Qed.

(** X7.  The chart depends on the point and the centre only through their
    difference: moving both by the same vector [t] leaves [pull_back]
    unchanged and moves the result of [push_forward] by [t]. *)
Theorem chart_translation :
  forall (n : nat) (c per t : Point),
    length c = n -> length t = n ->
    (forall q : Point,
        length q = n ->
        SphericalManifold.pull_back (SphericalManifold.mk n (padd c t) per)
          (padd q t)
        = SphericalManifold.pull_back (SphericalManifold.mk n c per) q) /\
    (forall sp : Point,
        SphericalManifold.push_forward (SphericalManifold.mk n (padd c t) per) sp
        = (q <- SphericalManifold.push_forward (SphericalManifold.mk n c per) sp ;;
           Value (padd q t))).
Proof.
  intros n c per t Hc Ht. split.
  - intros q Hq. unfold SphericalManifold.pull_back.
    cbn [SphericalManifold.center SphericalManifold.spacedim].
    rewrite psub_padd_padd by congruence. reflexivity.
  - intros sp. unfold SphericalManifold.push_forward.
    cbn [SphericalManifold.center SphericalManifold.spacedim].
    destruct (Assert _ _) as [[] | e | ]; cbn [bind]; try reflexivity.
    destruct (Rltb 1e-10 (coord sp 0)).
    + destruct n as [|[|[|[|n]]]]; cbn [bind]; try reflexivity;
        rewrite padd_assoc; reflexivity.
    + cbn [bind]. rewrite padd_assoc. reflexivity.
Qed.

Lemma chart_translation_witness :
  SphericalManifold.pull_back
    (SphericalManifold.mk 2 (padd [0; 0] [5; 7]) []) (padd [3; 4] [5; 7])
  = SphericalManifold.pull_back (SphericalManifold.mk 2 [0; 0] []) [3; 4].
Proof.
  destruct (chart_translation 2 [0; 0] [] [5; 7]) as [H _].
  - reflexivity.
  - reflexivity.
  - apply H. reflexivity.
Defined.

Lemma coord_pscale (s : R) (v : Point) (k : nat) :
  coord (pscale s v) k = s * coord v k.
Proof.
  unfold coord, pscale. revert k; induction v as [|a v IH]; intros [|k];
    cbn [map nth]; try ring; try reflexivity. apply IH.
Qed.

(** [atan2] sees only the direction of its argument. *)
Lemma atan2_scale (s y x : R) : 0 < s -> atan2 (s * y) (s * x) = atan2 y x.
Proof.
  intros Hs.
  destruct (Rtotal_order x 0) as [Hx | [Hx | Hx]].
  - assert (Hsx : s * x < 0) by nra.
    assert (Hq : s * y / (s * x) = y / x) by (field; lra).
    destruct (Rle_lt_dec 0 y) as [Hy | Hy].
    + rewrite !atan2_neg_x_nonneg_y by (try assumption; nra).
      rewrite Hq; reflexivity.
    + rewrite !atan2_neg_x_neg_y by (try assumption; nra).
      rewrite Hq; reflexivity.
  - subst x. rewrite Rmult_0_r.
    destruct (Rtotal_order y 0) as [Hy | [Hy | Hy]].
    + rewrite !atan2_zero_x_neg_y by (try assumption; nra). reflexivity.
    + subst y. rewrite Rmult_0_r. reflexivity.
    + rewrite !atan2_zero_x_pos_y by (try assumption; nra). reflexivity.
  - assert (Hsx : 0 < s * x) by nra.
    rewrite !atan2_pos_x by assumption.
    f_equal. field; lra.
Qed.

Lemma sqrt_scale (s x y : R) :
  0 < s ->
  sqrt (s * x * (s * x) + s * y * (s * y)) = s * sqrt (x * x + y * y).
Proof.
  intros Hs.
  replace (s * x * (s * x) + s * y * (s * y))
    with (s * s * (x * x + y * y)) by ring.
  rewrite sqrt_mult by nra. rewrite sqrt_square by lra. reflexivity.
Qed.

(** The chart coordinates of a point moved along its ray from the centre. *)
Lemma pull_back_ray (n : nat) (c per v : Point) (s : R) :
  n = 2%nat \/ n = 3%nat -> length c = n -> length v = n -> 0 < s ->
  forall p : Point,
    SphericalManifold.pull_back (SphericalManifold.mk n c per) (padd c v)
    = Value p ->
    SphericalManifold.pull_back (SphericalManifold.mk n c per)
      (padd c (pscale s v))
    = Value (set_coord p 0 (s * coord p 0)).
Proof.
  intros Hn Hc Hv Hs p Hp.
  assert (E1 : psub (padd c v) c = v) by (apply psub_padd_l; congruence).
  assert (E2 : psub (padd c (pscale s v)) c = pscale s v).
  { apply psub_padd_l. rewrite length_pscale; congruence. }
  destruct Hn as [-> | ->].
  - rewrite pull_back_2d in Hp |- *. cbv zeta in Hp |- *.
    rewrite E1 in Hp. rewrite E2. injection Hp as <-.
    rewrite !coord_pscale, atan2_scale by exact Hs.
    rewrite norm_pscale, Rabs_right by lra. reflexivity.
  - rewrite pull_back_3d in Hp |- *. cbv zeta in Hp |- *.
    rewrite E1 in Hp. rewrite E2. injection Hp as <-.
    rewrite !coord_pscale, atan2_scale by exact Hs.
    rewrite sqrt_scale, atan2_scale by exact Hs.
    rewrite norm_pscale, Rabs_right by lra. reflexivity.
Qed.

(** X8.  Moving an ambient point along its ray from the centre changes its
    radius coordinate and no angle: in ambient dimension 2 or 3, for s > 0,
    [pull_back] of centre + s (q - centre) is [pull_back] of q with the
    radius multiplied by s. *)
Theorem pull_back_along_ray :
  forall (n : nat) (c per q p : Point) (s : R),
    n = 2%nat \/ n = 3%nat -> length c = n -> length q = n -> 0 < s ->
    SphericalManifold.pull_back (SphericalManifold.mk n c per) q = Value p ->
    SphericalManifold.pull_back (SphericalManifold.mk n c per)
      (padd c (pscale s (psub q c)))
    = Value (set_coord p 0 (s * coord p 0)).
Proof.
  intros n c per q p s Hn Hc Hq Hs Hp.
  apply pull_back_ray; try assumption.
  - rewrite length_psub; congruence.
  - rewrite padd_comm, padd_psub by congruence. exact Hp.
Qed.

Lemma pull_back_along_ray_witness :
  exists p : Point,
    SphericalManifold.pull_back (SphericalManifold.mk 2 [0; 0] []) [3; 4]
    = Value p /\
    SphericalManifold.pull_back (SphericalManifold.mk 2 [0; 0] [])
      (padd [0; 0] (pscale 2 (psub [3; 4] [0; 0])))
    = Value (set_coord p 0 (2 * coord p 0)).
Proof.
  eexists. split; [apply pull_back_2d | ].
  apply (pull_back_along_ray 2 [0; 0] [] [3; 4] _ 2).
  - left; reflexivity.
  - reflexivity.
  - reflexivity.
  - lra.
  - apply pull_back_2d.
Defined.

(* ------------------------------------------------------------------ *)
(** ** SphericalManifold: further properties of the averaging rule *)

Lemma pscale_padd (w : R) (p t : Point) :
  pscale w (padd p t) = padd (pscale w p) (pscale w t).
Proof.
  revert t; induction p as [|a p IH]; intros [|x t]; simpl; auto.
  f_equal; [ring | apply IH].
Qed.

Lemma pscale_plus (a b : R) (t : Point) :
  pscale (a + b) t = padd (pscale a t) (pscale b t).
Proof.
  induction t as [|x t IH]; simpl; [reflexivity | ].
  f_equal; [ring | exact IH].
Qed.

Lemma pscale_one (v : Point) : pscale 1 v = v.
Proof.
  induction v as [|x v IH]; simpl; [reflexivity | ].
  f_equal; [ring | exact IH].
Qed.

Lemma pscale_zero (v : Point) : pscale 0 v = origin (length v).
Proof.
  induction v as [|x v IH]; [reflexivity | ].
  cbn [pscale map length].
  change (origin (S (length v))) with (0 :: origin (length v)).
  f_equal; [ring | exact IH].
Qed.

Lemma weighted_radius_translate (c t : Point) (ps : list Point) (ws : list R) :
  Forall (fun p => length p = length c) ps -> length t = length c ->
  weighted_radius (padd c t) (map (fun p => padd p t) ps) ws
  = weighted_radius c ps ws.
Proof.
  intros Hall Ht; revert ws; induction Hall as [|p ps Hp Hps IH]; intros ws;
    [reflexivity | ].
  destruct ws as [|w ws]; [reflexivity | ].
  cbn [map weighted_radius]. rewrite IH.
  rewrite psub_padd_padd by congruence. reflexivity.
Qed.

Lemma weighted_point_translate (n : nat) (t : Point) (ps : list Point)
    (ws : list R) :
  Forall (fun p => length p = n) ps -> length t = n ->
  length ws = length ps ->
  weighted_point n (map (fun p => padd p t) ps) ws
  = padd (weighted_point n ps ws) (pscale (total_weight ws) t).
Proof.
  intros Hall Ht; revert ws; induction Hall as [|p ps Hp Hps IH]; intros ws Hlen.
  - destruct ws; [ | discriminate]. cbn [map weighted_point total_weight].
    rewrite pscale_zero, Ht. rewrite <- (length_origin n) at 3.
    rewrite padd_origin_r. reflexivity.
  - destruct ws as [|w ws]; [discriminate | ].
    cbn [map weighted_point total_weight]. rewrite IH by (simpl in Hlen; lia).
    rewrite pscale_padd, pscale_plus.
    set (a := pscale w p). set (b := pscale w t).
    set (m := weighted_point n ps ws). set (d := pscale (total_weight ws) t).
    rewrite !padd_assoc. f_equal.
    rewrite <- !padd_assoc. f_equal. apply padd_comm.
Qed.

Lemma well_formed_translate (n : nat) (t : Point) (quad : Quadrature) :
  well_formed n quad -> length t = n ->
  well_formed n (mkQuadrature (map (fun p => padd p t) (quadrature_points quad))
                              (weights quad)).
Proof.
  intros [Hlen Hall] Ht. split; cbn [quadrature_points weights].
  - rewrite length_map; exact Hlen.
  - apply Forall_map. eapply Forall_impl; [ | exact Hall].
    intros p Hp. cbn. rewrite length_padd; congruence.
Qed.



Lemma weighted_radius_repeat (c p : Point) (ws : list R) :
  weighted_radius c (repeat p (length ws)) ws
  = total_weight ws * norm (psub p c).
Proof.
  induction ws as [|w ws IH]; simpl; [ring | ]. rewrite IH; ring.
Qed.

Lemma weighted_point_repeat (n : nat) (p : Point) (ws : list R) :
  length p = n ->
  weighted_point n (repeat p (length ws)) ws = pscale (total_weight ws) p.
Proof.
  intros <-.
  induction ws as [|w ws IH]; cbn [length repeat weighted_point total_weight].
  - rewrite pscale_zero. reflexivity.
  - rewrite IH, pscale_plus. reflexivity.
Qed.



Lemma weighted_radius_bounds (c : Point) (lower upper : R)
    (ps : list Point) (ws : list R) :
  Forall (fun p => lower <= norm (psub p c) <= upper) ps ->
  Forall (fun w => 0 <= w) ws ->
  length ws = length ps ->
  total_weight ws * lower <= weighted_radius c ps ws <= total_weight ws * upper.
Proof.
  intros Hps; revert ws; induction Hps as [|p ps Hp Hps IH]; intros ws Hws Hlen.
  - destruct ws; [simpl; lra | discriminate].
  - destruct ws as [|w ws]; [discriminate | ].
    inversion Hws as [|? ? Hw Hws']; subst.
    cbn [weighted_radius total_weight].
    assert (Hl : length ws = length ps) by (simpl in Hlen; lia).
    specialize (IH ws Hws' Hl). nra.
Qed.



Lemma weighted_radius_equal (c : Point) (r : R) (ps : list Point) (ws : list R) :
  Forall (fun p => norm (psub p c) = r) ps -> length ws = length ps ->
  weighted_radius c ps ws = total_weight ws * r.
Proof.
  intros Hps; revert ws; induction Hps as [|p ps Hp Hps IH]; intros ws Hlen.
  - destruct ws; [simpl; ring | discriminate].
  - destruct ws as [|w ws]; [discriminate | ].
    cbn [weighted_radius total_weight].
    rewrite Hp, IH by (simpl in Hlen; lia). ring.
Qed.






